(** * HACOO-SpreadSheet: the client-side product service

    A shallow embedding of [src/product-service.js] (class [ProductService]):
    the insertion-ordered cache, the retrying fetch, the record filter, the
    seeded Fisher-Yates shuffle, the "Hot" aggregation and the error
    classifier, followed by the properties the specification states about
    them. *)

From Stdlib Require Import ZArith QArith Qround Lia Lqa.
From stdpp Require Import gmap strings list sorting pretty.

Set Warnings "-register-all".
From Equations Require Import Equations.

Local Open Scope Z_scope.
Local Open Scope string_scope.
Local Open Scope list_scope.

(** ** The seeded shuffle ([seededShuffle], lines 99-116)

    JavaScript numbers that are finite are rationals; the model computes with
    [Q] exactly where the engine rounds to the nearest double.  [Math.sin] is
    a parameter of the development.  The seed is an integer, as produced by
    [Math.floor(Date.now() / 259200000)]. *)

Section Shuffle.
Variable Math_sin : Z -> Q.
Context {A : Type}.

(** [const random = () => { var x = Math.sin(currentSeed++) * 10000;
    return x - Math.floor(x); }]: the draw, and the incremented
    [currentSeed] the closure leaves behind. *)
Definition random (currentSeed : Z) : Q * Z :=
  let x := (Math_sin currentSeed * inject_Z 10000)%Q in
  ((x - inject_Z (Qfloor x))%Q, currentSeed + 1).

(** [Math.floor(random() * (i + 1))] *)
Definition draw_index (r : Q) (i : nat) : Z :=
  Qfloor (r * inject_Z (Z.of_nat (i + 1))).

(** [[shuffled[i], shuffled[j]] = [shuffled[j], shuffled[i]]]: the
    right-hand side is read first, then [shuffled[i]] and [shuffled[j]] are
    assigned in this order.  Every call the loop makes has both indices
    inside the array ([draw_index_range] below), so the assignment never
    extends it; the last branch is there to make the function total. *)
Definition swap (shuffled : list A) (i j : nat) : list A :=
  match shuffled !! j, shuffled !! i with
  | Some aj, Some ai => <[j := ai]> (<[i := aj]> shuffled)
  | _, _ => shuffled
  end.

(** [for (let i = shuffled.length - 1; i > 0; i--) { ... }], on the value
    of the array. *)
Fixpoint shuffle_loop (i : nat) (currentSeed : Z) (shuffled : list A) : list A :=
  match i with
  | O => shuffled
  | S i' =>
      let '(r, currentSeed') := random currentSeed in
      let j := draw_index r i in
      shuffle_loop i' currentSeed' (swap shuffled i (Z.to_nat j))
  end.

(** Every array access of the loop is within bounds: at each iteration
    [i < shuffled.length] and [0 <= j <= i]. *)
Fixpoint accesses_in_range (i : nat) (currentSeed : Z) (shuffled : list A) : Prop :=
  match i with
  | O => True
  | S i' =>
      let '(r, currentSeed') := random currentSeed in
      let j := draw_index r i in
      ((i < length shuffled)%nat /\ 0 <= j <= Z.of_nat i) /\
      accesses_in_range i' currentSeed' (swap shuffled i (Z.to_nat j))
  end.

(** The value [seededShuffle(array, seed)] returns. *)
Definition seededShuffle (array : list A) (seed : Z) : list A :=
  let shuffled := array in
  shuffle_loop (length shuffled - 1) seed shuffled.

(** *** The same function on a store of arrays

    JavaScript arrays are references.  [store] maps a reference to the
    current contents of the array it denotes; [const shuffled = [...array]]
    allocates a new array, and the loop writes into that array in place. *)
Abbreviation ref := positive.
Abbreviation store := (gmap positive (list A)).

Definition spread (array : ref) (σ : store) : option (ref * store) :=
  match σ !! array with
  | Some a => let l := fresh (dom σ) in Some (l, <[l := a]> σ)
  | None => None
  end.

Definition swap_ref (shuffled : ref) (i j : nat) (σ : store) : store :=
  match σ !! shuffled with
  | Some a => <[shuffled := swap a i j]> σ
  | None => σ
  end.

Fixpoint shuffle_loop_ref (i : nat) (currentSeed : Z) (shuffled : ref)
    (σ : store) : store :=
  match i with
  | O => σ
  | S i' =>
      let '(r, currentSeed') := random currentSeed in
      let j := draw_index r i in
      shuffle_loop_ref i' currentSeed' shuffled (swap_ref shuffled i (Z.to_nat j) σ)
  end.

(** [None] when [array] is not a live reference. *)
Definition seededShuffle_ref (array : ref) (seed : Z) (σ : store)
    : option (ref * store) :=
  match spread array σ with
  | Some (shuffled, σ1) =>
      let len := match σ1 !! shuffled with Some a => length a | None => O end in
      Some (shuffled, shuffle_loop_ref (len - 1) seed shuffled σ1)
  | None => None
  end.
End Shuffle.

(** The seed of the Hot aggregation: [Math.floor(Date.now() / 259200000)]. *)
Definition WINDOW_MS : Z := 259200000.
Definition hot_seed (now : Z) : Z := now / WINDOW_MS.

(** ** JavaScript values

    A thrown value is an [Error] object; the service only ever reads its
    [name] and its [message]. *)

Record JsError := { error_name : string; error_message : string }.

(** [new Error(message)] *)
Definition Error (message : string) : JsError :=
  {| error_name := "Error"; error_message := message |}.

Definition TypeError (message : string) : JsError :=
  {| error_name := "TypeError"; error_message := message |}.

(** The outcome of an expression that may throw. *)
Inductive Result (A : Type) : Type :=
| Ok (a : A)
| Throw (error : JsError).
Arguments Ok {A} a.
Arguments Throw {A} error.

(** What [response.json()] can produce.  An object is the list of its own
    properties, each key occurring once. *)
Inductive json : Type :=
| JNull
| JBool (b : bool)
| JNum (q : Q)
| JStr (s : string)
| JArr (elements : list json)
| JObj (fields : list (string * json)).

(** A JavaScript value read from parsed JSON: [None] is [undefined]. *)
Definition value := option json.

Fixpoint assoc (k : string) (fields : list (string * json)) : value :=
  match fields with
  | [] => None
  | (k', v) :: rest => if decide (k = k') then Some v else assoc k rest
  end.

(** [product.key] for a [product] that is not [null], at one of the six
    field names the filter reads: an own property of an object, [undefined]
    on anything else (a boolean, a number, a string or an array has no
    property of these names). *)
Definition prop (product : json) (key : string) : value :=
  match product with
  | JObj fields => assoc key fields
  | _ => None
  end.

(** [ToBoolean]: [undefined], [null], [false], [0], and the empty string are
    falsy; every array and every object is truthy. *)
Definition truthy (v : value) : bool :=
  match v with
  | None => false
  | Some JNull => false
  | Some (JBool b) => b
  | Some (JNum q) => negb (Qeq_bool q 0)
  | Some (JStr s) => negb (String.eqb s "")
  | Some (JArr _) => true
  | Some (JObj _) => true
  end.

(** [a || b] and [a && b] on values. *)
Definition js_or (a b : value) : value := if truthy a then a else b.
Definition js_and (a b : value) : value := if truthy a then b else a.

(** [haystack.includes(needle)] *)
Fixpoint includes (haystack needle : string) : bool :=
  String.prefix needle haystack ||
  match haystack with
  | EmptyString => false
  | String _ rest => includes rest needle
  end.

(** ** Configuration ([CONFIG], defined outside the service) *)

Record Category := { name : string; endpoint : string }.

Record Config := {
  API_BASE_URL : string;
  API_TIMEOUT : Z;
  API_RETRY_COUNT : Z;
  API_RETRY_DELAY : Z;
  CACHE_ENABLED : bool;
  CACHE_EXPIRY_TIME : Z;
  CACHE_MAX_SIZE : Z;
  categories : list Category;
  TIMEOUT_ERROR : string;
  NETWORK_ERROR : string;
  LOADING_ERROR : string;
  UTILS_getCategoryUrl : option (string -> string)
}.

(** ** The insertion-ordered [Map] behind [this.cache]

    A JavaScript [Map] iterates in insertion order; [set] on a key that is
    present replaces the value where it stands, [set] on an absent key
    appends.  The model is the list of entries in iteration order. *)

Record CacheEntry := { data : list json; timestamp : Z }.

Section JsMap.
Context {V : Type}.
Implicit Types (m : list (string * V)) (k : string).

Fixpoint Map_get k m : option V :=
  match m with
  | [] => None
  | (k', v) :: rest => if decide (k = k') then Some v else Map_get k rest
  end.

Definition Map_has k m : bool :=
  match Map_get k m with Some _ => true | None => false end.

Fixpoint Map_set k (v : V) m : list (string * V) :=
  match m with
  | [] => [(k, v)]
  | (k', v') :: rest =>
      if decide (k = k') then (k', v) :: rest else (k', v') :: Map_set k v rest
  end.

Fixpoint Map_delete k m : list (string * V) :=
  match m with
  | [] => []
  | (k', v') :: rest =>
      if decide (k = k') then rest else (k', v') :: Map_delete k rest
  end.

Definition Map_size m : nat := length m.

Definition Map_keys m : list string := map fst m.

(** [m.keys().next().value]: [None] is the [undefined] of an empty map. *)
Definition Map_first_key m : option string := head (Map_keys m).
End JsMap.

(** ** The world the service runs in

    [Date.now()] and the network are inputs: the [n]-th reading of the clock
    and the answer to the [n]-th request are given by the environment, and the
    state counts how many of each were consumed.  [trace] records, in order,
    the requests issued, the delays awaited and the console lines written. *)

Inductive Attempt : Type :=
| TimedOut (msg : string)
    (** the timer called [controller.abort()] before a response arrived:
        [fetch] rejects with a [DOMException] named [AbortError] *)
| Rejected (error : JsError)
    (** [fetch] rejects for another reason, with the error the browser
        gives; when the server cannot be reached, Chromium gives a
        [TypeError] whose message is [Failed to fetch] *)
| Response (status : Z) (statusText : string) (body : Result json)
    (** a response arrived; [body] is what [response.json()] settles to *).

Inductive Event : Type :=
| EFetch (url : string)
| EDelay (ms : Z)
| LogCacheHit (endpoint : string)
| LogHotSeed (seed : Z)
| LogRetry (attempt : Z)
| WarnHotFailed (endpoint : string) (err : JsError)
| ErrorHot (err : JsError)
| ErrorFetching (endpoint : string) (err : JsError).

Record Environment := {
  clock : nat -> Z;
  upstream : nat -> string -> Attempt;
  Math_sin : Z -> Q;
  encodeURIComponent : string -> string
}.

Record World := {
  cache : list (string * CacheEntry);
  clock_reads : nat;
  requests : nat;
  trace : list Event
}.

Definition set_cache (c : list (string * CacheEntry)) (w : World) : World :=
  {| cache := c; clock_reads := clock_reads w; requests := requests w;
     trace := trace w |}.

Definition emit (e : Event) (w : World) : World :=
  {| cache := cache w; clock_reads := clock_reads w; requests := requests w;
     trace := trace w ++ [e] |}.

(** The part of an asynchronous call that runs after its first suspension:
    it settles to a value or to a thrown error. *)
Definition Promise (A : Type) : Type := World -> Result A * World.

(** An asynchronous call runs synchronously up to its first [await] and
    hands back the promise of the rest. *)
Definition Call (A : Type) : Type := World -> Promise A * World.

Definition resolved {A} (a : A) : Promise A := fun w => (Ok a, w).

(** [await call(...)] with nothing else running in between. *)
Definition await {A} (c : Call A) : Promise A :=
  fun w => let '(p, w1) := c w in p w1.

(** [promise.catch(handler)] *)
Definition catch {A} (p : Promise A) (handler : JsError -> Promise A) : Promise A :=
  fun w =>
    match p w with
    | (Ok a, w1) => (Ok a, w1)
    | (Throw e, w1) => handler e w1
    end.

(** [Promise.all(promises)].  The promises settle one after the other in
    list order, which is one of the orders the event loop may choose; every
    promise runs to its end even when an earlier one has rejected. *)
Fixpoint Promise_all {A} (promises : list (Promise A)) : Promise (list A) :=
  fun w =>
    match promises with
    | [] => (Ok [], w)
    | p :: rest =>
        let '(r, w1) := p w in
        let '(rs, w2) := Promise_all rest w1 in
        (match r, rs with
         | Ok a, Ok l => Ok (a :: l)
         | Throw e, _ => Throw e
         | Ok _, Throw e => Throw e
         end, w2)
    end.

(** ** The service ([class ProductService])

    The fields [isLoading] and [retryCount] of the instance are written by the
    constructor and never read; the instance is its [cache]. *)

Section Service.
Variable CONFIG : Config.
Variable env : Environment.

(** [Date.now()] *)
Definition Date_now (w : World) : Z * World :=
  (clock env (clock_reads w),
   {| cache := cache w; clock_reads := S (clock_reads w);
      requests := requests w; trace := trace w |}).

(** [fetch(url, { signal: controller.signal })]: the request leaves, and
    the environment decides how the attempt ends. *)
Definition fetch (url : string) (w : World) : Attempt * World :=
  (upstream env (requests w) url,
   {| cache := cache w; clock_reads := clock_reads w;
      requests := S (requests w); trace := trace w ++ [EFetch url] |}).

(** [response.ok]: the status is in the range 200-299. *)
Definition response_ok (status : Z) : bool :=
  (200 <=? status)%Z && (status <=? 299)%Z.

(** Lines 120-134, the body of the [try] once the attempt has settled:
    an abort or another failure rejects [fetch]; a response that is not
    [ok] throws [new Error(`HTTP ${status}: ${statusText}`)]; otherwise the
    result is that of [response.json()]. *)
Definition attempt_result (a : Attempt) : Result json :=
  match a with
  | TimedOut msg => Throw {| error_name := "AbortError"; error_message := msg |}
  | Rejected error => Throw error
  | Response status statusText body =>
      if response_ok status then body
      else Throw (Error ("HTTP " +:+ pretty status +:+ ": " +:+ statusText))
  end.

(** [delay(ms)], awaited *)
Definition delay (ms : Z) (w : World) : World := emit (EDelay ms) w.

(** [fetchWithRetry(url, retryCount = 0)], lines 119-143.  The request is
    issued before the first suspension; the [catch] block runs when the
    attempt has failed. *)
Equations? fetchWithRetry (url : string) (retryCount : Z) : Call json
    by wf (Z.to_nat (API_RETRY_COUNT CONFIG - retryCount)) lt :=
  fetchWithRetry url retryCount := fun w =>
    let '(a, w1) := fetch url w in
    (fun w' =>
       match attempt_result a with
       | Ok body => (Ok body, w')
       | Throw error =>
           match decide (retryCount < API_RETRY_COUNT CONFIG) with
           | left _ =>
               let w2 := emit (LogRetry (retryCount + 1)) w' in
               let w3 := delay (API_RETRY_DELAY CONFIG * (retryCount + 1)) w2 in
               await (fetchWithRetry url (retryCount + 1)) w3
           | right _ => (Throw error, w')
           end
       end,
     w1).
Proof. lia. Qed.

(** [handleError(error)], lines 146-154 *)
Definition handleError (error : JsError) : JsError :=
  if decide (error_name error = "AbortError") then
    Error (TIMEOUT_ERROR CONFIG)
  else if includes (error_message error) "Failed to fetch" then
    Error (NETWORK_ERROR CONFIG)
  else
    Error (LOADING_ERROR CONFIG).

(** Lines 159-162: when the map is full, its first key is deleted.  On an
    empty map [firstKey] is [undefined], which no entry has for key. *)
Definition evict_oldest {V} (m : list (string * V)) : list (string * V) :=
  if (Z.of_nat (Map_size m) >=? CACHE_MAX_SIZE CONFIG)%Z then
    match Map_first_key m with
    | Some firstKey => Map_delete firstKey m
    | None => m
    end
  else m.

(** [updateCache(key, data)], lines 157-168 *)
Definition updateCache (key : string) (data : list json) (w : World) : World :=
  let w0 := set_cache (evict_oldest (cache w)) w in
  let '(now, w1) := Date_now w0 in
  set_cache (Map_set key {| data := data; timestamp := now |} (cache w1)) w1.

(** [clearCache()] and [getCacheInfo()], lines 176-186 *)
Definition clearCache (w : World) : World := set_cache [] w.

Definition getCacheInfo (w : World) : nat * list string :=
  (Map_size (cache w), Map_keys (cache w)).

(** The filter callback of lines 46-50.  Reading a property of [null]
    throws a [TypeError]; its message is the engine's (V8's wording here and
    in [validProducts]). *)
Definition is_valid (product : json) : Result bool :=
  match product with
  | JNull =>
      Throw (TypeError "Cannot read properties of null (reading 'title_clean')")
  | _ =>
      Ok (truthy
            (js_and
               (js_and (js_or (prop product "title_clean") (prop product "spbt"))
                       (js_or (prop product "media_urls") (prop product "ztURL")))
               (js_or (prop product "converted_link") (prop product "spURL"))))
  end.

(** [Array.prototype.filter] with that callback: the elements are visited
    in order, an element is kept when the callback's result is truthy, and
    an exception thrown by the callback ends the whole call. *)
Fixpoint filter_valid (products : list json) : Result (list json) :=
  match products with
  | [] => Ok []
  | product :: rest =>
      match is_valid product with
      | Throw e => Throw e
      | Ok keep =>
          match filter_valid rest with
          | Throw e => Throw e
          | Ok kept => Ok (if keep then product :: kept else kept)
          end
      end
  end.

(** [data.filter(...)] on whatever the body parsed to: only an array has a
    [filter] method. *)
Definition validProducts (body : json) : Result (list json) :=
  match body with
  | JArr products => filter_valid products
  | JNull => Throw (TypeError "Cannot read properties of null (reading 'filter')")
  | _ => Throw (TypeError "data.filter is not a function")
  end.

(** Lines 39-41 *)
Definition apiUrl (endpoint : string) : string :=
  match UTILS_getCategoryUrl CONFIG with
  | Some getCategoryUrl => getCategoryUrl endpoint
  | None => API_BASE_URL CONFIG +:+ "/" +:+ encodeURIComponent env endpoint
  end.

(** Lines 43-61 of [fetchProducts]: the direct request for one category. *)
Definition fetchCategory (endpoint : string) : Call (list json) := fun w =>
  let cacheKey := endpoint in
  let '(p, w1) := fetchWithRetry (apiUrl endpoint) 0 w in
  (fun w' =>
     let '(r, w2) := p w' in
     let outcome :=
       match r with
       | Ok body => validProducts body
       | Throw error => Throw error
       end in
     match outcome with
     | Ok valid =>
         (Ok valid,
          if CACHE_ENABLED CONFIG then updateCache cacheKey valid w2 else w2)
     | Throw error =>
         (Throw (handleError error), emit (ErrorFetching endpoint error) w2)
     end,
   w1).

(** Calls made one after the other by [Array.prototype.map]; each runs up
    to its first suspension.  [None] when one of them does not return. *)
Fixpoint call_each {A} (call : string -> World -> option (Promise A * World))
    (endpoints : list string) (w : World) : option (list (Promise A) * World) :=
  match endpoints with
  | [] => Some ([], w)
  | e :: rest =>
      match call e w with
      | None => None
      | Some (p, w1) =>
          match call_each call rest w1 with
          | None => None
          | Some (ps, w2) => Some (p :: ps, w2)
          end
      end
  end.

(** [.catch(err => { console.warn(...); return []; })], lines 83-86 *)
Definition absorb (endpoint : string) (p : Promise (list json)) : Promise (list json) :=
  catch p (fun err w => (Ok [], emit (WarnHotFailed endpoint err) w)).

Definition otherCategories : list string :=
  map endpoint (filter (fun c => name c ≠ "Hot") (categories CONFIG)).

(** [fetchHotProducts()], lines 65-96; [fetchProducts] stands for
    [this.fetchProducts]. *)
Definition fetchHotProducts
    (fetchProducts : string -> World -> option (Promise (list json) * World))
    (w : World) : option (Promise (list json) * World) :=
  let '(now, w1) := Date_now w in
  let seed := hot_seed now in
  let w2 := emit (LogHotSeed seed) w1 in
  if decide (length otherCategories = O) then Some (resolved [], w2)
  else
    match call_each fetchProducts otherCategories w2 with
    | None => None
    | Some (raw, w3) =>
        let promises := zip_with absorb otherCategories raw in
        Some (fun w' =>
                let '(r, w4) := Promise_all promises w' in
                match r with
                | Ok results =>
                    let allProducts := concat results in
                    (Ok (seededShuffle (Math_sin env) allProducts seed), w4)
                | Throw e => (Throw e, w4)
                end,
              w3)
    end.

(** [fetchProducts(endpoint)], lines 10-62.  [depth] bounds the nesting of
    calls ([fetchProducts] calls [fetchHotProducts], which calls
    [fetchProducts]); the result is [None] when the bound is reached. *)
Fixpoint fetchProducts (depth : nat) (endpoint : string) (w : World)
    : option (Promise (list json) * World) :=
  match depth with
  | O => None
  | S depth' =>
      let cacheKey := endpoint in
      let miss (w : World) : option (Promise (list json) * World) :=
        if decide (endpoint = "Hot") then
          match fetchHotProducts (fetchProducts depth') w with
          | None => None
          | Some (p, w1) =>
              Some (fun w' =>
                      match p w' with
                      | (Ok hotData, w2) =>
                          (Ok hotData,
                           if CACHE_ENABLED CONFIG
                           then updateCache cacheKey hotData w2 else w2)
                      | (Throw error, w2) =>
                          (Throw (handleError error), emit (ErrorHot error) w2)
                      end,
                    w1)
          end
        else Some (fetchCategory endpoint w) in
      if CACHE_ENABLED CONFIG && Map_has cacheKey (cache w) then
        match Map_get cacheKey (cache w) with
        | Some cached =>
            let '(now, w1) := Date_now w in
            if (now - timestamp cached <? CACHE_EXPIRY_TIME CONFIG)%Z then
              Some (resolved (data cached), emit (LogCacheHit endpoint) w1)
            else miss w1
        | None => miss w
        end
      else miss w
  end.

(** A call from outside, awaited to its end. *)
Definition run (depth : nat) (endpoint : string) (w : World)
    : option (Result (list json) * World) :=
  match fetchProducts depth endpoint w with
  | Some (p, w1) => Some (p w1)
  | None => None
  end.
End Service.

(** ** Notions the specification speaks of *)

(** The three user-facing kinds of failure (specification, 4.7 and 7). *)
Inductive ErrorKind : Type := TimeoutError | NetworkError | LoadingError.

(** The classification by the ordered checks: an abort first, then a
    transport failure (recognised by the text [Failed to fetch] in the
    message), then everything else. *)
Definition is_abort (e : JsError) : bool :=
  bool_decide (error_name e = "AbortError").

Definition is_transport_failure (e : JsError) : bool :=
  includes (error_message e) "Failed to fetch".

Definition classify (e : JsError) : ErrorKind :=
  if is_abort e then TimeoutError
  else if is_transport_failure e then NetworkError
  else LoadingError.

Definition kind_message (CONFIG : Config) (k : ErrorKind) : string :=
  match k with
  | TimeoutError => TIMEOUT_ERROR CONFIG
  | NetworkError => NETWORK_ERROR CONFIG
  | LoadingError => LOADING_ERROR CONFIG
  end.

(** A field value counts as non-empty when it is present and is not [null],
    [false], zero or the empty string. *)
Definition non_empty (v : value) : Prop :=
  match v with
  | None => False
  | Some JNull => False
  | Some (JBool b) => b = true
  | Some (JNum q) => ¬ (q == 0)%Q
  | Some (JStr s) => s ≠ ""
  | Some (JArr _) => True
  | Some (JObj _) => True
  end.

(** A record with a non-empty value under at least one alias of each of the
    three required fields. *)
Definition has_required_fields (product : json) : Prop :=
  (non_empty (prop product "title_clean") ∨ non_empty (prop product "spbt")) ∧
  (non_empty (prop product "media_urls") ∨ non_empty (prop product "ztURL")) ∧
  (non_empty (prop product "converted_link") ∨ non_empty (prop product "spURL")).

(** On a field that is absent or holds a string, the only shapes the
    specification's examples use, this is: the string is there and is not
    the empty string. *)
Definition string_or_absent (v : value) : Prop :=
  v = None ∨ ∃ s, v = Some (JStr s).

Definition non_empty_string (v : value) : Prop :=
  ∃ s, v = Some (JStr s) ∧ s ≠ "".

#[global] Instance non_empty_dec v : Decision (non_empty v).
Proof.
  destruct v as [[|b|q|s|l|fs]|]; simpl; try apply _.
  destruct (Qeq_dec q 0); [right|left]; tauto.
Defined.

#[global] Instance has_required_fields_dec product :
  Decision (has_required_fields product).
Proof. unfold has_required_fields. apply _. Defined.

(** An attempt fails when the [try] block of [fetchWithRetry] throws. *)
Definition fails (a : Attempt) (e : JsError) : Prop :=
  attempt_result a = Throw e.

(** What a call whose attempts all fail leaves in the trace after its first
    request, from retry count [k] on, [n] retries remaining: the console
    line, the wait of [RETRY_DELAY * (k + 1)], the next request. *)
Fixpoint retries (url : string) (retry_delay : Z) (k : Z) (n : nat) : list Event :=
  match n with
  | O => []
  | S n' =>
      LogRetry (k + 1) :: EDelay (retry_delay * (k + 1)) :: EFetch url ::
      retries url retry_delay (k + 1) n'
  end.

Definition is_fetch (e : Event) : bool :=
  match e with EFetch _ => true | _ => false end.

Definition count_fetches (t : list Event) : nat :=
  length (List.filter is_fetch t).

Section CacheCheck.
Variable CONFIG : Config.
Variable env : Environment.

(** The entry the cache check of [fetchProducts] (lines 14-20) accepts as a
    hit in world [w], if any. *)
Definition fresh_entry (endpoint : string) (w : World) : option CacheEntry :=
  if CACHE_ENABLED CONFIG then
    match Map_get endpoint (cache w) with
    | Some cached =>
        if (clock env (clock_reads w) - timestamp cached
            <? CACHE_EXPIRY_TIME CONFIG)%Z
        then Some cached else None
    | None => None
    end
  else None.

(** The world once the cache check is over: the clock is read only when
    caching is enabled and the key is present. *)
Definition after_cache_check (endpoint : string) (w : World) : World :=
  if CACHE_ENABLED CONFIG && Map_has endpoint (cache w)
  then snd (Date_now env w) else w.
End CacheCheck.

(** *** Histories of the cache

    A use of the cache is a store or a read that hits.  To speak of the order
    in which the entries held were inserted, each entry is given the number of
    the store that inserted it: a store to a key that is held keeps the
    number, a store to a key that is not held takes the number of this
    store. *)
Inductive CacheOp : Type :=
| OpPut (key : string) (data : list json)
| OpHit (key : string).

Definition stamped : Type := list (string * (CacheEntry * nat)).

Definition erase (sc : stamped) : list (string * CacheEntry) :=
  map (fun kv => (kv.1, kv.2.1)) sc.

Definition stamps (sc : stamped) : list nat := map (fun kv => kv.2.2) sc.

(** The stamps grow along the iteration order of the map, and every stamp
    is the number of a past store. *)
Definition well_stamped (n : nat) (sc : stamped) : Prop :=
  StronglySorted lt (stamps sc) ∧ Forall (fun s => s < n)%nat (stamps sc).

Section CacheHistory.
Variable CONFIG : Config.
Variable env : Environment.

Definition cache_step (w : World) (op : CacheOp) : World :=
  match op with
  | OpPut key data => updateCache CONFIG env key data w
  | OpHit key => emit (LogCacheHit key) (snd (Date_now env w))
  end.

Definition stamped_step (n : nat) (now : Z) (op : CacheOp) (sc : stamped) : stamped :=
  match op with
  | OpPut key data =>
      let kept := evict_oldest CONFIG sc in
      let born :=
        match Map_get key kept with Some (_, born) => born | None => n end in
      Map_set key ({| data := data; timestamp := now |}, born) kept
  | OpHit _ => sc
  end.

(** The world and the stamped entries after the uses [ops], the first of
    which is use number [n]. *)
Fixpoint history (n : nat) (ops : list CacheOp) (w : World) (sc : stamped)
    : World * stamped :=
  match ops with
  | [] => (w, sc)
  | op :: rest =>
      history (S n) rest (cache_step w op)
        (stamped_step n (clock env (clock_reads w)) op sc)
  end.
End CacheHistory.

(** *** The sub-fetches of the aggregation *)

(** What the result of a sub-fetch contributes to the aggregate: its list
    when it succeeded, the empty list when it failed. *)
Definition contribution (r : Result (list json)) : list json :=
  match r with
  | Ok l => l
  | Throw _ => []
  end.

(** The results to which the calls [this.fetchProducts(endpoint)] settle when
    their promises [raw] are awaited by [Promise.all] from world [w], each
    failure being followed by the warning of its [catch] handler. *)
Fixpoint settle (endpoints : list string) (raw : list (Promise (list json)))
    (w : World) : list (Result (list json)) * World :=
  match endpoints, raw with
  | e :: es, p :: ps =>
      let '(r, w1) := p w in
      let w2 :=
        match r with
        | Ok _ => w1
        | Throw err => emit (WarnHotFailed e err) w1
        end in
      let '(rs, w3) := settle es ps w2 in
      (r :: rs, w3)
  | _, _ => ([], w)
  end.

Definition failed {A} (r : Result A) : Prop := ∃ e, r = Throw e.

(** Where the list of a sub-fetch that succeeded comes from: it is the data
    of the entry the cache [c] held for the category, or it consists of
    records that carry the required fields. *)
Definition category_list (c : list (string * CacheEntry)) (e : string)
    (r : Result (list json)) : Prop :=
  ∀ l, r = Ok l ->
    (∃ cached, Map_get e c = Some cached ∧ l = data cached) ∨
    Forall has_required_fields l.

(** The promise of a sub-fetch: resolved with cached data, or that of a
    direct request. *)
Definition category_promise (CONFIG : Config) (env : Environment)
    (c : list (string * CacheEntry)) (e : string)
    (p : Promise (list json)) : Prop :=
  (∃ cached, Map_get e c = Some cached ∧ p = resolved (data cached)) ∨
  (∃ wi, p = (fetchCategory CONFIG env e wi).1).

(** The contract line of 4.2, read literally: a call that has exhausted its
    retries fails with a failure of the kind [NetworkError]. *)
Definition exhausted_retries_raise_NetworkError : Prop :=
  ∀ (CONFIG : Config) (env : Environment) (url : string) (w w' : World)
    (e : JsError),
    0 <= API_RETRY_COUNT CONFIG ->
    (∀ k, (k <= Z.to_nat (API_RETRY_COUNT CONFIG))%nat ->
          ∃ e', fails (upstream env (requests w + k) url) e') ->
    await (fetchWithRetry CONFIG env url 0) w = (Throw e, w') ->
    classify e = NetworkError.

(** *** Further notions *)

(** A parsed body on which the filter throws: anything that is not an
    array, and an array with a [null] element. *)
Definition malformed (body : json) : Prop :=
  match body with
  | JArr products => JNull ∈ products
  | _ => True
  end.

(** The key a store deletes before it writes, if any (lines 159-162). *)
Definition evicted_key (CONFIG : Config) (c : list (string * CacheEntry))
    : option string :=
  if (Z.of_nat (Map_size c) >=? CACHE_MAX_SIZE CONFIG)%Z
  then Map_first_key c else None.

(** Every list held by the cache consists of records that carry the
    required fields. *)
Definition valid_cache (c : list (string * CacheEntry)) : Prop :=
  Forall (fun kv => Forall has_required_fields (data kv.2)) c.

(** The failure carries one of the three configured messages. *)
Definition classified (CONFIG : Config) (e : JsError) : Prop :=
  ∃ k, e = Error (kind_message CONFIG k).

(** What a settled call gave its caller is in order: a list of records that
    carry the required fields, or one of the three configured failures. *)
Definition result_in_order (CONFIG : Config) (r : Result (list json)) : Prop :=
  match r with
  | Ok l => Forall has_required_fields l
  | Throw e => classified CONFIG e
  end.

(** A promise that keeps a property [I] of the cache and settles in
    order. *)
Definition sound (CONFIG : Config) (I : list (string * CacheEntry) -> Prop)
    (p : Promise (list json)) : Prop :=
  ∀ w, I (cache w) -> I (cache (p w).2) ∧ result_in_order CONFIG (p w).1.

(** *** Sessions

    A user of the service calls [fetchProducts] and [clearCache] in some
    order, each call awaited before the next. *)
Inductive ServiceCall : Type :=
| CallFetchProducts (endpoint : string)
| CallClearCache.

Fixpoint session (CONFIG : Config) (env : Environment) (depth : nat)
    (calls : list ServiceCall) (w : World)
    : option (list (Result (list json)) * World) :=
  match calls with
  | [] => Some ([], w)
  | CallFetchProducts endpoint :: rest =>
      match run CONFIG env depth endpoint w with
      | None => None
      | Some (r, w1) =>
          match session CONFIG env depth rest w1 with
          | None => None
          | Some (rs, w2) => Some (r :: rs, w2)
          end
      end
  | CallClearCache :: rest => session CONFIG env depth rest (clearCache w)
  end.

(** The endpoints asked for, in order. *)
Fixpoint fetch_endpoints (calls : list ServiceCall) : list string :=
  match calls with
  | [] => []
  | CallFetchProducts endpoint :: rest => endpoint :: fetch_endpoints rest
  | CallClearCache :: rest => fetch_endpoints rest
  end.

(** What holds of the cache of a service that started empty. *)
Definition cache_in_order (CONFIG : Config) (c : list (string * CacheEntry)) : Prop :=
  NoDup (Map_keys c) ∧
  Z.of_nat (Map_size c) <= Z.max 1 (CACHE_MAX_SIZE CONFIG) ∧
  valid_cache c.

(** A promise that sends at most [n] requests before it settles. *)
Definition within {A} (n : nat) (p : Promise A) : Prop :=
  ∀ w, (requests w <= requests (p w).2 <= requests w + n)%nat.

(** *** What a call may leave in the trace

    The requests a call for [endpoint] may send: to the URL of the category
    asked for, or for Hot to the URLs of the categories it fans out to. *)
Definition may_request (CONFIG : Config) (env : Environment)
    (endpoint : string) (url : string) : Prop :=
  if decide (endpoint = "Hot")
  then ∃ c, c ∈ otherCategories CONFIG ∧ url = apiUrl CONFIG env c
  else url = apiUrl CONFIG env endpoint.

(** A request to a URL in [U], a wait of [RETRY_DELAY * k] announced as
    retry [k] for some [k] from 1 to [RETRY_COUNT], or a console line. *)
Definition allowed_event (CONFIG : Config) (U : string -> Prop) (ev : Event) : Prop :=
  match ev with
  | EFetch url => U url
  | EDelay ms =>
      ∃ k, 1 <= k <= API_RETRY_COUNT CONFIG ∧ ms = API_RETRY_DELAY CONFIG * k
  | LogRetry k => 1 <= k <= API_RETRY_COUNT CONFIG
  | _ => True
  end.

(** [w'] has the trace of [w] followed by events that all satisfy [T]. *)
Definition grows (T : Event -> Prop) (w w' : World) : Prop :=
  ∃ t, trace w' = trace w ++ t ∧ Forall T t.

Definition adds {A} (T : Event -> Prop) (p : Promise A) : Prop :=
  ∀ w, grows T w (p w).2.

(** ** A sample configuration and sample environments *)

Definition sample_config : Config :=
  {| API_BASE_URL := "https://feed.example";
     API_TIMEOUT := 500;
     API_RETRY_COUNT := 2;
     API_RETRY_DELAY := 100;
     CACHE_ENABLED := true;
     CACHE_EXPIRY_TIME := 1000;
     CACHE_MAX_SIZE := 2;
     categories :=
       [ {| name := "Hot"; endpoint := "Hot" |};
         {| name := "Shoes"; endpoint := "Shoes" |};
         {| name := "Bags"; endpoint := "Bags" |} ];
     TIMEOUT_ERROR := "The request timed out";
     NETWORK_ERROR := "The network is unreachable";
     LOADING_ERROR := "The products could not be loaded";
     UTILS_getCategoryUrl := None |}.

Definition sample_record : json :=
  JObj [("title_clean", JStr "A"); ("media_urls", JStr "u");
        ("converted_link", JStr "l")].

Definition sample_body : json :=
  JArr [sample_record; JObj [("spbt", JStr "B")]].

(** Every request times out. *)
Definition env_timing_out : Environment :=
  {| clock := fun n => Z.of_nat n * 10;
     upstream := fun _ _ => TimedOut "signal is aborted without reason";
     Math_sin := fun c => (c # 7)%Q;
     encodeURIComponent := fun s => s |}.

(** The first two requests time out, the later ones are answered. *)
Definition env_recovering : Environment :=
  {| clock := fun n => Z.of_nat n * 10;
     upstream := fun n _ =>
       if (n <? 2)%nat then TimedOut "signal is aborted without reason"
       else Response 200 "OK" (Ok sample_body);
     Math_sin := fun c => (c # 7)%Q;
     encodeURIComponent := fun s => s |}.

Definition empty_world : World :=
  {| cache := []; clock_reads := 0; requests := 0; trace := [] |}.

(** The Shoes feed is down and every other feed answers. *)
Definition env_shoes_down : Environment :=
  {| clock := fun n => Z.of_nat n * 10;
     upstream := fun _ url =>
       if decide (url = "https://feed.example/Shoes")
       then Rejected (TypeError "Failed to fetch")
       else Response 200 "OK" (Ok sample_body);
     Math_sin := fun c => (c # 7)%Q;
     encodeURIComponent := fun s => s |}.

(** A world whose cache holds the Shoes and Bags feeds, stored at time 0. *)
Definition warm_world : World :=
  {| cache :=
       [("Shoes", {| data := [sample_record]; timestamp := 0 |});
        ("Bags", {| data := []; timestamp := 0 |})];
     clock_reads := 0; requests := 0; trace := [] |}.

(** The sample configuration with caching switched off. *)
Definition sample_config_uncached : Config :=
  {| API_BASE_URL := "https://feed.example";
     API_TIMEOUT := 500;
     API_RETRY_COUNT := 2;
     API_RETRY_DELAY := 100;
     CACHE_ENABLED := false;
     CACHE_EXPIRY_TIME := 1000;
     CACHE_MAX_SIZE := 2;
     categories :=
       [ {| name := "Hot"; endpoint := "Hot" |};
         {| name := "Shoes"; endpoint := "Shoes" |};
         {| name := "Bags"; endpoint := "Bags" |} ];
     TIMEOUT_ERROR := "The request timed out";
     NETWORK_ERROR := "The network is unreachable";
     LOADING_ERROR := "The products could not be loaded";
     UTILS_getCategoryUrl := None |}.

(** Every feed answers with an array that holds a [null]. *)
Definition env_malformed : Environment :=
  {| clock := fun n => Z.of_nat n * 10;
     upstream := fun _ _ => Response 200 "OK" (Ok (JArr [sample_record; JNull]));
     Math_sin := fun c => (c # 7)%Q;
     encodeURIComponent := fun s => s |}.

(** A sine that is cut off from 2 on. *)
Definition sine_cut_off (c : Z) : Q := if (c <? 2)%Z then (c # 7)%Q else 0%Q.

(** ** Properties of the record filter *)

Lemma truthy_non_empty (v : value) : truthy v = true ↔ non_empty v.
Proof.
  destruct v as [[|b|q|s|l|fs]|]; simpl; try done.
  - rewrite negb_true_iff. split.
    + intros H Hq. apply Qeq_bool_iff in Hq. congruence.
    + intros H. destruct (Qeq_bool q 0) eqn:E; [|done].
      apply Qeq_bool_iff in E. done.
  - rewrite negb_true_iff. split.
    + intros H ->. done.
    + intros H. apply String.eqb_neq. done.
Qed.

Lemma truthy_js_or (a b : value) :
  truthy (js_or a b) = truthy a || truthy b.
Proof. unfold js_or. by destruct (truthy a) eqn:E; simpl. Qed.

Lemma truthy_js_and (a b : value) :
  truthy (js_and a b) = truthy a && truthy b.
Proof. unfold js_and. by destruct (truthy a) eqn:E; simpl. Qed.

Lemma is_valid_spec (product : json) :
  product ≠ JNull ->
  is_valid product = Ok (bool_decide (has_required_fields product)).
Proof.
  intros Hnull.
  assert (E : is_valid product =
    Ok (truthy
          (js_and
             (js_and (js_or (prop product "title_clean") (prop product "spbt"))
                     (js_or (prop product "media_urls") (prop product "ztURL")))
             (js_or (prop product "converted_link") (prop product "spURL"))))).
  { by destruct product. }
  rewrite E. f_equal.
  rewrite !truthy_js_and, !truthy_js_or.
  apply eq_true_iff_eq. rewrite bool_decide_eq_true.
  rewrite !andb_true_iff, !orb_true_iff, !truthy_non_empty.
  unfold has_required_fields. tauto.
Qed.

Lemma filter_valid_spec (products : list json) :
  Forall (fun p => p ≠ JNull) products ->
  filter_valid products = Ok (filter has_required_fields products).
Proof.
  induction 1 as [|p ps Hp Hps IH]; simpl; [done|].
  rewrite (is_valid_spec p Hp), IH, filter_cons.
  by destruct (decide (has_required_fields p));
    [rewrite bool_decide_eq_true_2|rewrite bool_decide_eq_false_2].
Qed.

Lemma non_empty_on_strings (v : value) :
  string_or_absent v -> (non_empty v ↔ non_empty_string v).
Proof.
  intros [->|[s ->]]; unfold non_empty_string; simpl.
  - split; [done|]. by intros (s & ? & _).
  - split.
    + intros Hs. by exists s.
    + by intros (s' & [= <-] & Hs).
Qed.


(** ** Properties of the error classifier *)

Lemma handleError_kind (CONFIG : Config) (e : JsError) :
  handleError CONFIG e = Error (kind_message CONFIG (classify e)).
Proof.
  unfold handleError, classify, is_abort, is_transport_failure.
  destruct (decide (error_name e = "AbortError")) as [Hn|Hn].
  - by rewrite bool_decide_eq_true_2.
  - rewrite bool_decide_eq_false_2 by done.
    by destruct (includes (error_message e) "Failed to fetch").
Qed.


(** ** Properties of the retrying fetch *)

Section RetryFacts.
Variable CONFIG : Config.
Variable env : Environment.

Lemma await_fetchWithRetry (url : string) (retryCount : Z) (w : World) :
  await (fetchWithRetry CONFIG env url retryCount) w =
  let '(a, w1) := fetch env url w in
  match attempt_result a with
  | Ok body => (Ok body, w1)
  | Throw error =>
      if decide (retryCount < API_RETRY_COUNT CONFIG) then
        await (fetchWithRetry CONFIG env url (retryCount + 1))
          (delay (API_RETRY_DELAY CONFIG * (retryCount + 1))
             (emit (LogRetry (retryCount + 1)) w1))
      else (Throw error, w1)
  end.
Proof.
  unfold await at 1. rewrite fetchWithRetry_equation_1. simpl.
  destruct (attempt_result _); [done|].
  by destruct (decide _).
Qed.

(** A call at retry count [rc] with [n] retries left, all of whose [n + 1]
    attempts fail. *)
Lemma fetchWithRetry_all_fail (url : string) (n : nat) :
  ∀ (rc : Z) (w : World) (last : JsError),
    API_RETRY_COUNT CONFIG - rc = Z.of_nat n ->
    (∀ k, (k < n)%nat -> ∃ e, fails (upstream env (requests w + k) url) e) ->
    fails (upstream env (requests w + n) url) last ->
    await (fetchWithRetry CONFIG env url rc) w =
      (Throw last,
       {| cache := cache w; clock_reads := clock_reads w;
          requests := requests w + S n;
          trace := trace w ++ EFetch url ::
                   retries url (API_RETRY_DELAY CONFIG) rc n |}).
Proof.
  induction n as [|n IH]; intros rc w last Hrc Hfail Hlast.
  - rewrite await_fetchWithRetry. simpl.
    rewrite Nat.add_0_r in Hlast. rewrite Hlast.
    rewrite decide_False by lia.
    do 2 f_equal. lia.
  - rewrite await_fetchWithRetry. simpl.
    destruct (Hfail O ltac:(lia)) as [e0 He0].
    rewrite Nat.add_0_r in He0. rewrite He0.
    rewrite decide_True by lia.
    rewrite (IH (rc + 1) _ last).
    + simpl. do 2 f_equal; [lia|].
      rewrite <- !app_assoc. done.
    + lia.
    + intros k Hk. simpl.
      destruct (Hfail (S k) ltac:(lia)) as [e He]. exists e.
      by replace (S (requests w + k))%nat with (requests w + S k)%nat by lia.
    + simpl.
      by replace (S (requests w + n))%nat with (requests w + S n)%nat by lia.
Qed.

Lemma count_fetches_retries url d k n :
  count_fetches (retries url d k n) = n.
Proof.
  revert k. induction n as [|n IH]; intros k; [done|].
  unfold count_fetches in *. simpl. by rewrite IH.
Qed.
End RetryFacts.

(** ** The cache check and the direct path of [fetchProducts] *)

Section ServiceFacts.
Variable CONFIG : Config.
Variable env : Environment.

Lemma Map_has_get {V} (k : string) (m : list (string * V)) :
  Map_has k m = true ↔ is_Some (Map_get k m).
Proof.
  unfold Map_has.
  destruct (Map_get k m); split; intros H;
    first [done | by eexists | by destruct H].
Qed.

Lemma fetchProducts_fresh depth endpoint w cached :
  fresh_entry CONFIG env endpoint w = Some cached ->
  fetchProducts CONFIG env (S depth) endpoint w =
    Some (resolved (data cached),
          emit (LogCacheHit endpoint) (snd (Date_now env w))).
Proof.
  unfold fresh_entry. intros H. simpl.
  destruct (CACHE_ENABLED CONFIG); [|done]. simpl.
  unfold Map_has.
  destruct (Map_get endpoint (cache w)) as [c|]; [|done].
  destruct (_ <? _)%Z; [|discriminate]. by inversion H.
Qed.

Lemma fetchProducts_miss depth endpoint w :
  fresh_entry CONFIG env endpoint w = None ->
  endpoint ≠ "Hot" ->
  fetchProducts CONFIG env (S depth) endpoint w =
    Some (fetchCategory CONFIG env endpoint
            (after_cache_check CONFIG env endpoint w)).
Proof.
  unfold fresh_entry, after_cache_check. intros H Hne. simpl.
  destruct (CACHE_ENABLED CONFIG); simpl.
  - unfold Map_has.
    destruct (Map_get endpoint (cache w)) as [c|].
    + destruct (_ <? _)%Z; [done|]. by rewrite decide_False.
    + by rewrite decide_False.
  - by rewrite decide_False.
Qed.

Lemma fetchProducts_miss_Hot depth w :
  fresh_entry CONFIG env "Hot" w = None ->
  fetchProducts CONFIG env (S depth) "Hot" w =
    match fetchHotProducts CONFIG env (fetchProducts CONFIG env depth)
            (after_cache_check CONFIG env "Hot" w) with
    | None => None
    | Some (p, w1) =>
        Some (fun w' =>
                match p w' with
                | (Ok hotData, w2) =>
                    (Ok hotData,
                     if CACHE_ENABLED CONFIG
                     then updateCache CONFIG env "Hot" hotData w2 else w2)
                | (Throw error, w2) =>
                    (Throw (handleError CONFIG error), emit (ErrorHot error) w2)
                end,
              w1)
    end.
Proof.
  unfold fresh_entry, after_cache_check. intros H. simpl.
  destruct (CACHE_ENABLED CONFIG); simpl; [|done].
  unfold Map_has.
  destruct (Map_get "Hot" (cache w)) as [c|]; [|done].
  by destruct (_ <? _)%Z.
Qed.

Lemma after_cache_check_requests endpoint w :
  requests (after_cache_check CONFIG env endpoint w) = requests w.
Proof. unfold after_cache_check. by destruct (_ && _). Qed.

Lemma after_cache_check_cache endpoint w :
  cache (after_cache_check CONFIG env endpoint w) = cache w.
Proof. unfold after_cache_check. by destruct (_ && _). Qed.

Lemma after_cache_check_trace endpoint w :
  trace (after_cache_check CONFIG env endpoint w) = trace w.
Proof. unfold after_cache_check. by destruct (_ && _). Qed.

Lemma await_fetchCategory endpoint w :
  await (fetchCategory CONFIG env endpoint) w =
  let '(r, w2) := await (fetchWithRetry CONFIG env (apiUrl CONFIG env endpoint) 0) w in
  match match r with Ok body => validProducts body | Throw e => Throw e end with
  | Ok valid =>
      (Ok valid,
       if CACHE_ENABLED CONFIG then updateCache CONFIG env endpoint valid w2 else w2)
  | Throw error =>
      (Throw (handleError CONFIG error), emit (ErrorFetching endpoint error) w2)
  end.
Proof.
  unfold await, fetchCategory.
  by destruct (fetchWithRetry CONFIG env (apiUrl CONFIG env endpoint) 0 w).
Qed.

Lemma run_fresh depth endpoint w cached :
  fresh_entry CONFIG env endpoint w = Some cached ->
  run CONFIG env (S depth) endpoint w =
    Some (Ok (data cached),
          emit (LogCacheHit endpoint) (snd (Date_now env w))).
Proof. intros H. unfold run. by rewrite (fetchProducts_fresh _ _ _ cached). Qed.

Lemma run_miss depth endpoint w :
  fresh_entry CONFIG env endpoint w = None ->
  endpoint ≠ "Hot" ->
  run CONFIG env (S depth) endpoint w =
    Some (await (fetchCategory CONFIG env endpoint)
            (after_cache_check CONFIG env endpoint w)).
Proof.
  intros H Hne. unfold run, await. rewrite fetchProducts_miss by done.
  by destruct (fetchCategory _ _ _ _).
Qed.

(** C2. When every attempt fails, [fetchWithRetry] issues exactly
    [RETRY_COUNT + 1] requests, waits [RETRY_DELAY * (k + 1)] after the
    [k]-th failure before the next request, and raises the failure of the
    last attempt; [fetchProducts] for a direct category then raises the
    classified error, after exactly [RETRY_COUNT + 1] requests. *)
Theorem failing_upstream_is_tried_retry_count_plus_one_times
    (url : string) (w0 : World) (depth : nat) (endpoint : string) (w : World) :
  0 <= API_RETRY_COUNT CONFIG ->
  (∀ k, (k <= Z.to_nat (API_RETRY_COUNT CONFIG))%nat ->
        ∃ e, fails (upstream env (requests w0 + k) url) e) ->
  endpoint ≠ "Hot" ->
  fresh_entry CONFIG env endpoint w = None ->
  (∀ k, (k <= Z.to_nat (API_RETRY_COUNT CONFIG))%nat ->
        ∃ e, fails (upstream env (requests w + k) (apiUrl CONFIG env endpoint)) e) ->
  (∃ last w0',
      fails (upstream env (requests w0 + Z.to_nat (API_RETRY_COUNT CONFIG)) url) last ∧
      await (fetchWithRetry CONFIG env url 0) w0 = (Throw last, w0') ∧
      trace w0' = trace w0 ++ EFetch url ::
        retries url (API_RETRY_DELAY CONFIG) 0 (Z.to_nat (API_RETRY_COUNT CONFIG)) ∧
      Z.of_nat (count_fetches (EFetch url ::
        retries url (API_RETRY_DELAY CONFIG) 0 (Z.to_nat (API_RETRY_COUNT CONFIG))))
        = API_RETRY_COUNT CONFIG + 1 ∧
      Z.of_nat (requests w0') = Z.of_nat (requests w0) + API_RETRY_COUNT CONFIG + 1) ∧
  (∃ last w',
      fails (upstream env (requests w + Z.to_nat (API_RETRY_COUNT CONFIG))
               (apiUrl CONFIG env endpoint)) last ∧
      run CONFIG env (S depth) endpoint w = Some (Throw (handleError CONFIG last), w') ∧
      handleError CONFIG last = Error (kind_message CONFIG (classify last)) ∧
      Z.of_nat (requests w') = Z.of_nat (requests w) + API_RETRY_COUNT CONFIG + 1).
Proof.
  intros Hrc Hall0 Hne Hfresh Hall.
  set (n := Z.to_nat (API_RETRY_COUNT CONFIG)) in *.
  split.
  - destruct (Hall0 n ltac:(lia)) as [last Hlast].
    exists last. eexists. split; [done|]. split.
    + apply (fetchWithRetry_all_fail CONFIG env url n); [lia| |done].
      intros k Hk. apply Hall0. lia.
    + simpl. split; [done|]. split; [|lia].
      change (count_fetches (EFetch url :: ?t)) with (S (count_fetches t)).
      rewrite count_fetches_retries. lia.
  - destruct (Hall n ltac:(lia)) as [last Hlast].
    exists last. eexists. split; [done|].
    rewrite run_miss by done.
    set (w1 := after_cache_check CONFIG env endpoint w).
    rewrite await_fetchCategory.
    rewrite (fetchWithRetry_all_fail CONFIG env _ n 0 w1 last).
    + split; [done|]. split.
      * apply handleError_kind.
      * simpl. subst w1. rewrite after_cache_check_requests. lia.
    + lia.
    + intros k Hk. subst w1. rewrite after_cache_check_requests. apply Hall. lia.
    + subst w1. by rewrite after_cache_check_requests.
Qed.

(** *** What a call leaves of the world *)

Local Ltac one_request :=
  simpl; split; [done|]; split; [done|]; split; [lia|]; by exists [].

(** A retrying fetch issues its first request at once, and touches neither
    the cache nor the clock. *)
Lemma fetchWithRetry_frame (url : string) (n : nat) :
  ∀ (rc : Z) (w : World),
    Z.to_nat (API_RETRY_COUNT CONFIG - rc) = n ->
    let '(r, w') := await (fetchWithRetry CONFIG env url rc) w in
    cache w' = cache w ∧ clock_reads w' = clock_reads w ∧
    (requests w < requests w')%nat ∧
    ∃ t, trace w' = trace w ++ EFetch url :: t.
Proof.
  induction n as [|n IH]; intros rc w Hn; rewrite await_fetchWithRetry; simpl.
  - destruct (attempt_result _); [one_request|].
    rewrite decide_False by lia. one_request.
  - destruct (attempt_result _); [one_request|].
    destruct (decide _); [|one_request].
    specialize (IH (rc + 1)
      (delay (API_RETRY_DELAY CONFIG * (rc + 1))
         (emit (LogRetry (rc + 1))
            {| cache := cache w; clock_reads := clock_reads w;
               requests := S (requests w);
               trace := trace w ++ [EFetch url] |})) ltac:(lia)).
    destruct (await _ _) as [r w']. simpl in IH.
    destruct IH as (Hc & Hk & Hr & t & Ht).
    split; [done|]. split; [done|]. split; [lia|].
    eexists. rewrite Ht. rewrite <- !app_assoc. simpl. done.
Qed.

Lemma fetchWithRetry_frame0 (url : string) (w : World) :
  let '(r, w') := await (fetchWithRetry CONFIG env url 0) w in
  cache w' = cache w ∧ clock_reads w' = clock_reads w ∧
  (requests w < requests w')%nat ∧
  ∃ t, trace w' = trace w ++ EFetch url :: t.
Proof. by eapply fetchWithRetry_frame. Qed.

(** The direct path: a request leaves first. *)
Lemma fetchCategory_frame endpoint w :
  let '(r, w') := await (fetchCategory CONFIG env endpoint) w in
  (requests w < requests w')%nat ∧
  ∃ t, trace w' = trace w ++ EFetch (apiUrl CONFIG env endpoint) :: t.
Proof.
  rewrite await_fetchCategory.
  pose proof (fetchWithRetry_frame0 (apiUrl CONFIG env endpoint) w) as H.
  destruct (await _ w) as [r w2].
  destruct H as (Hc & Hk & Hr & t & Ht).
  destruct (match r with Ok body => validProducts body | Throw e => Throw e end).
  - destruct (CACHE_ENABLED CONFIG); simpl; (split; [done|by exists t]).
  - simpl. split; [done|]. eexists. rewrite Ht, <- app_assoc. done.
Qed.

(** The synchronous part of a call for a category other than Hot. *)
Lemma fetchProducts_sync depth endpoint w :
  endpoint ≠ "Hot" ->
  ∃ p w', fetchProducts CONFIG env (S depth) endpoint w = Some (p, w') ∧
          cache w' = cache w ∧ ∃ t, trace w' = trace w ++ t.
Proof.
  intros Hne.
  destruct (fresh_entry CONFIG env endpoint w) as [c|] eqn:Hf.
  - rewrite (fetchProducts_fresh _ _ _ c Hf).
    do 2 eexists. split; [done|]. split; [done|]. by eexists.
  - rewrite (fetchProducts_miss _ _ _ Hf Hne).
    unfold fetchCategory. rewrite fetchWithRetry_equation_1. simpl.
    do 2 eexists. split; [done|]. simpl.
    rewrite after_cache_check_cache, after_cache_check_trace.
    split; [done|]. by eexists.
Qed.

Lemma call_each_fetchProducts depth (endpoints : list string) :
  Forall (fun e => e ≠ "Hot") endpoints ->
  ∀ w, ∃ raw w',
    call_each (fetchProducts CONFIG env (S depth)) endpoints w = Some (raw, w') ∧
    length raw = length endpoints ∧
    cache w' = cache w ∧ ∃ t, trace w' = trace w ++ t.
Proof.
  induction 1 as [|e es He Hes IH]; intros w; cbn [call_each].
  - do 2 eexists. split; [done|]. split; [done|]. split; [done|].
    exists []. by rewrite app_nil_r.
  - destruct (fetchProducts_sync depth e w He) as (p & w1 & -> & Hc1 & t1 & Ht1).
    destruct (IH w1) as (raw & w2 & -> & Hlen & Hc2 & t2 & Ht2).
    do 2 eexists. split; [done|]. simpl. split; [by rewrite Hlen|].
    split; [congruence|]. exists (t1 ++ t2). by rewrite Ht2, Ht1, app_assoc.
Qed.

(** With no fan-out endpoint named Hot, the aggregation starts: it writes
    its seed line, then makes its calls. *)
Lemma fetchHotProducts_starts depth w :
  Forall (fun e => e ≠ "Hot") (otherCategories CONFIG) ->
  ∃ p w', fetchHotProducts CONFIG env (fetchProducts CONFIG env (S depth)) w
            = Some (p, w') ∧
          cache w' = cache w ∧
          ∃ t, trace w' =
               trace w ++ LogHotSeed (hot_seed (clock env (clock_reads w))) :: t.
Proof.
  intros Hhot. unfold fetchHotProducts. simpl.
  destruct (decide _).
  - do 2 eexists. split; [done|]. split; [done|]. by exists [].
  - edestruct (call_each_fetchProducts depth _ Hhot) as (raw & w3 & -> & _ & Hc & t & Ht).
    do 2 eexists. split; [done|]. split; [by rewrite Hc|].
    exists t. rewrite Ht. simpl. by rewrite <- app_assoc.
Qed.

(** C5. With caching enabled and an entry held for the key, stamped [T]:
    when [now - T < EXPIRY_TIME] the call returns the entry's data, issues
    no request and leaves the cache as it is; when [now - T >= EXPIRY_TIME]
    the entry, still held, is not used: a direct category sends a request
    first, Hot starts the aggregation.  [now] is the clock read at this
    check. *)
Theorem cached_entry_is_a_hit_exactly_while_fresh
    (depth : nat) (endpoint : string) (w : World) (cached : CacheEntry) :
  CACHE_ENABLED CONFIG = true ->
  Map_get endpoint (cache w) = Some cached ->
  let now := clock env (clock_reads w) in
  (now - timestamp cached < CACHE_EXPIRY_TIME CONFIG ->
     ∃ w', run CONFIG env (S (S depth)) endpoint w = Some (Ok (data cached), w') ∧
           requests w' = requests w ∧ cache w' = cache w ∧
           trace w' = trace w ++ [LogCacheHit endpoint]) ∧
  (CACHE_EXPIRY_TIME CONFIG <= now - timestamp cached ->
     fresh_entry CONFIG env endpoint w = None ∧
     Map_get endpoint (cache (after_cache_check CONFIG env endpoint w))
       = Some cached ∧
     (endpoint ≠ "Hot" ->
        ∃ r w' t, run CONFIG env (S (S depth)) endpoint w = Some (r, w') ∧
                  (requests w < requests w')%nat ∧
                  trace w' =
                    trace w ++ EFetch (apiUrl CONFIG env endpoint) :: t) ∧
     (endpoint = "Hot" ->
        Forall (fun e => e ≠ "Hot") (otherCategories CONFIG) ->
        ∃ p w' t, fetchProducts CONFIG env (S (S depth)) endpoint w = Some (p, w') ∧
                  trace w' =
                    trace w ++
                    LogHotSeed (hot_seed (clock env (S (clock_reads w)))) :: t)).
Proof.
  intros Hen Hget now. split.
  - intros Hlt. eexists. split.
    + apply run_fresh. unfold fresh_entry. rewrite Hen, Hget.
      by rewrite (proj2 (Z.ltb_lt _ _)).
    + done.
  - intros Hge.
    assert (Hf : fresh_entry CONFIG env endpoint w = None).
    { unfold fresh_entry. rewrite Hen, Hget.
      by rewrite (proj2 (Z.ltb_ge _ _)). }
    split; [done|]. split; [by rewrite after_cache_check_cache|].
    split.
    + intros Hne. rewrite (run_miss _ _ _ Hf Hne).
      pose proof (fetchCategory_frame endpoint
                    (after_cache_check CONFIG env endpoint w)) as H.
      destruct (await _ _) as [r w'].
      rewrite after_cache_check_requests, after_cache_check_trace in H.
      destruct H as (Hr & t & Ht). by exists r, w', t.
    + intros -> Hhot. rewrite (fetchProducts_miss_Hot _ _ Hf).
      destruct (fetchHotProducts_starts depth
                  (after_cache_check CONFIG env "Hot" w) Hhot)
        as (p & w' & -> & Hc & t & Ht).
      do 2 eexists. exists t. split; [done|].
      rewrite Ht. unfold after_cache_check.
      rewrite Hen. rewrite (proj2 (Map_has_get "Hot" (cache w))) by (by eexists).
      done.
Qed.

(** C8, as the code has it.  When all [RETRY_COUNT + 1] attempts fail,
    [fetchWithRetry] raises the failure of the last attempt as it is; that
    failure is of the kind [NetworkError] exactly when it is not an abort
    and its message contains [Failed to fetch]. *)
Theorem exhausted_retries_raise_last_failure (url : string) (w : World) :
  0 <= API_RETRY_COUNT CONFIG ->
  (∀ k, (k <= Z.to_nat (API_RETRY_COUNT CONFIG))%nat ->
        ∃ e, fails (upstream env (requests w + k) url) e) ->
  ∃ last w',
    fails (upstream env (requests w + Z.to_nat (API_RETRY_COUNT CONFIG)) url) last ∧
    await (fetchWithRetry CONFIG env url 0) w = (Throw last, w') ∧
    (classify last = NetworkError ↔
       is_abort last = false ∧ is_transport_failure last = true).
Proof.
  intros Hrc Hall.
  set (n := Z.to_nat (API_RETRY_COUNT CONFIG)) in *.
  destruct (Hall n ltac:(lia)) as [last Hlast].
  exists last. eexists. split; [done|]. split.
  - apply (fetchWithRetry_all_fail CONFIG env url n); [lia| |done].
    intros k Hk. apply Hall. lia.
  - unfold classify.
    destruct (is_abort last), (is_transport_failure last);
      split; try done; intros [? ?]; done.
Qed.
End ServiceFacts.

(** C8, as stated, fails: with two retries configured and an upstream that
    times out on every attempt, the failure raised after the third attempt is
    the [AbortError] of that attempt, which is of the kind [TimeoutError]. *)
Lemma exhausted_retries_need_not_be_NetworkError :
  ¬ exhausted_retries_raise_NetworkError.
Proof.
  intros H.
  specialize (H sample_config env_timing_out "https://feed.example/Shoes"
                empty_world
                {| cache := []; clock_reads := 0; requests := 3;
                   trace :=
                     [EFetch "https://feed.example/Shoes"; LogRetry 1; EDelay 100;
                      EFetch "https://feed.example/Shoes"; LogRetry 2; EDelay 200;
                      EFetch "https://feed.example/Shoes"] |}
                {| error_name := "AbortError";
                   error_message := "signal is aborted without reason" |}).
  assert (Hk : classify {| error_name := "AbortError";
                           error_message := "signal is aborted without reason" |}
               = TimeoutError) by reflexivity.
  rewrite Hk in H. discriminate H.
  - done.
  - intros k _. eexists. reflexivity.
  - vm_compute. reflexivity.
Qed.

(** ** Properties of the cache *)

Section MapFacts.
Context {V : Type}.
Implicit Types (m : list (string * V)) (k : string) (v : V).

Lemma Map_get_None k m : Map_get k m = None ↔ k ∉ Map_keys m.
Proof.
  induction m as [|[k' v'] m IH]; simpl.
  - split; [intros _; apply not_elem_of_nil|done].
  - rewrite not_elem_of_cons. destruct (decide (k = k')) as [->|Hne].
    + split; [done|]. by intros [? _].
    + rewrite IH. tauto.
Qed.

Lemma Map_set_absent k v m :
  Map_get k m = None -> Map_set k v m = m ++ [(k, v)].
Proof.
  induction m as [|[k' v'] m IH]; simpl; [done|].
  destruct (decide (k = k')); [done|]. intros H. by rewrite IH.
Qed.

Lemma Map_set_keys_present k v v0 m :
  Map_get k m = Some v0 -> Map_keys (Map_set k v m) = Map_keys m.
Proof.
  induction m as [|[k' v'] m IH]; simpl; [done|].
  destruct (decide (k = k')); [done|]. intros H. simpl. by rewrite IH.
Qed.

Lemma Map_get_set_eq k v m : Map_get k (Map_set k v m) = Some v.
Proof.
  induction m as [|[k' v'] m IH]; simpl.
  - by rewrite decide_True.
  - destruct (decide (k = k')) as [->|Hne]; simpl.
    + by rewrite decide_True.
    + by rewrite decide_False.
Qed.

Lemma Map_set_length_present k v v0 m :
  Map_get k m = Some v0 -> length (Map_set k v m) = length m.
Proof.
  intros H. rewrite <- !(length_map fst).
  change (map fst ?x) with (Map_keys x). by erewrite Map_set_keys_present.
Qed.

Lemma Map_set_length_le k v m : (length (Map_set k v m) <= S (length m))%nat.
Proof.
  induction m as [|[k' v'] m IH]; simpl; [lia|].
  destruct (decide (k = k')); simpl; lia.
Qed.
End MapFacts.

Section CacheFacts.
Variable CONFIG : Config.
Variable env : Environment.
Implicit Types (sc : stamped) (w : World) (k key : string).

(** The full map loses its first entry, and nothing else. *)
Lemma evict_oldest_tail {V} (m : list (string * V)) :
  evict_oldest CONFIG m =
    if (Z.of_nat (length m) >=? CACHE_MAX_SIZE CONFIG)%Z then tail m else m.
Proof.
  unfold evict_oldest, Map_size. destruct (_ >=? _)%Z; [|done].
  destruct m as [|[k v] m]; simpl; [done|]. by rewrite decide_True.
Qed.

Lemma updateCache_cache key data w :
  cache (updateCache CONFIG env key data w) =
    Map_set key {| data := data; timestamp := clock env (clock_reads w) |}
      (evict_oldest CONFIG (cache w)).
Proof. done. Qed.

Lemma erase_length sc : length (erase sc) = length sc.
Proof. apply length_map. Qed.

Lemma Map_set_erase k e s sc :
  Map_set k e (erase sc) = erase (Map_set k (e, s) sc).
Proof.
  induction sc as [|[k' [e' s']] sc IH]; simpl; [done|].
  destruct (decide (k = k')); simpl; [done|]. by rewrite IH.
Qed.

Lemma evict_oldest_erase sc :
  evict_oldest CONFIG (erase sc) = erase (evict_oldest CONFIG sc).
Proof.
  rewrite !evict_oldest_tail, erase_length.
  destruct (_ >=? _)%Z; [|done]. by destruct sc.
Qed.

(** The stamped entries follow the cache. *)
Lemma stamped_step_erase n op w sc :
  erase sc = cache w ->
  erase (stamped_step CONFIG n (clock env (clock_reads w)) op sc) =
    cache (cache_step CONFIG env w op).
Proof.
  intros H. destruct op as [key data|key]; cbn [cache_step stamped_step]; [|done].
  rewrite updateCache_cache, <- H, evict_oldest_erase.
  by rewrite <- Map_set_erase.
Qed.

Lemma well_stamped_tail n sc : well_stamped n sc -> well_stamped n (tail sc).
Proof.
  destruct sc as [|x sc]; [done|]. unfold well_stamped, stamps. simpl.
  rewrite StronglySorted_cons, Forall_cons. by intros [[_ ?] [_ ?]].
Qed.

Lemma stamps_set_present k e born e0 sc :
  Map_get k sc = Some (e0, born) -> stamps (Map_set k (e, born) sc) = stamps sc.
Proof.
  unfold stamps. induction sc as [|[k' [e' s']] sc IH]; simpl; [done|].
  destruct (decide (k = k')); simpl.
  - by intros [= _ ->].
  - intros H. by rewrite IH.
Qed.

Lemma stamped_step_well_stamped n now op sc :
  well_stamped n sc -> well_stamped (S n) (stamped_step CONFIG n now op sc).
Proof.
  assert (Hmono : ∀ sc', well_stamped n sc' -> well_stamped (S n) sc').
  { intros sc' [H1 H2]. split; [done|].
    eapply Forall_impl; [done|]. simpl. lia. }
  intros Hws. destruct op as [key data|key]; simpl; [|by apply Hmono].
  assert (Hk : well_stamped n (evict_oldest CONFIG sc)).
  { rewrite evict_oldest_tail. destruct (_ >=? _)%Z; [|done].
    by apply well_stamped_tail. }
  destruct (Map_get key (evict_oldest CONFIG sc)) as [[e0 born]|] eqn:Hg.
  - apply Hmono. destruct Hk as [H1 H2].
    unfold well_stamped. by rewrite (stamps_set_present _ _ _ e0).
  - rewrite Map_set_absent by done. destruct Hk as [H1 H2].
    unfold well_stamped, stamps in *. rewrite map_app. simpl. split.
    + apply StronglySorted_app. split; [|split].
      * intros s1 s2 Hs1 ->%list_elem_of_singleton.
        by apply (proj1 (Forall_forall _ _) H2).
      * done.
      * repeat constructor.
    + apply Forall_app. split.
      * eapply Forall_impl; [done|]. simpl. lia.
      * repeat constructor.
Qed.

Lemma stamped_step_size n now op sc :
  1 <= CACHE_MAX_SIZE CONFIG ->
  Z.of_nat (length sc) <= CACHE_MAX_SIZE CONFIG ->
  Z.of_nat (length (stamped_step CONFIG n now op sc)) <= CACHE_MAX_SIZE CONFIG.
Proof.
  intros Hmax Hsz. destruct op as [key data|key]; simpl; [|done].
  set (v := (_, _)).
  pose proof (Map_set_length_le key v (evict_oldest CONFIG sc)) as Hle.
  rewrite evict_oldest_tail in *.
  destruct (_ >=? _)%Z eqn:Hfull.
  - destruct sc as [|x sc]; simpl in *; lia.
  - rewrite Z.geb_leb in Hfull. apply Z.leb_gt in Hfull. lia.
Qed.

Lemma history_invariant ops :
  1 <= CACHE_MAX_SIZE CONFIG ->
  ∀ n w sc,
    erase sc = cache w -> well_stamped n sc ->
    Z.of_nat (length sc) <= CACHE_MAX_SIZE CONFIG ->
    ∃ n', erase (history CONFIG env n ops w sc).2 =
            cache (history CONFIG env n ops w sc).1 ∧
          well_stamped n' (history CONFIG env n ops w sc).2 ∧
          Z.of_nat (length (history CONFIG env n ops w sc).2)
            <= CACHE_MAX_SIZE CONFIG.
Proof.
  intros Hmax. induction ops as [|op ops IH]; intros n w sc He Hws Hsz; simpl.
  - by exists n.
  - apply IH.
    + by apply stamped_step_erase.
    + by apply stamped_step_well_stamped.
    + by apply stamped_step_size.
Qed.


(** C10. In a cache that holds exactly [MAX_SIZE] entries, a store to a key
    that is held still deletes the first entry of the map before storing.
    When the first entry has another key, that entry is lost and the cache
    is left with [MAX_SIZE - 1] entries, the stored key staying where it
    stood; when the first entry is the stored key itself, it is deleted and
    re-inserted at the end of the map, the newest position. *)
Theorem store_to_a_held_key_at_capacity_still_evicts
    (w : World) (key : string) (data : list json) :
  NoDup (Map_keys (cache w)) ->
  Z.of_nat (Map_size (cache w)) = CACHE_MAX_SIZE CONFIG ->
  Map_has key (cache w) = true ->
  ∃ firstKey oldest rest,
    cache w = (firstKey, oldest) :: rest ∧
    let entry := {| data := data; timestamp := clock env (clock_reads w) |} in
    let after := cache (updateCache CONFIG env key data w) in
    (firstKey ≠ key ->
       after = Map_set key entry rest ∧
       Map_keys after = Map_keys rest ∧
       Map_get firstKey after = None ∧
       Map_get key after = Some entry ∧
       Z.of_nat (Map_size after) = CACHE_MAX_SIZE CONFIG - 1) ∧
    (firstKey = key ->
       after = rest ++ [(key, entry)] ∧
       Z.of_nat (Map_size after) = CACHE_MAX_SIZE CONFIG).
Proof.
  intros Hnd Hsz Hhas.
  destruct (cache w) as [|[firstKey oldest] rest] eqn:Hc; [done|].
  exists firstKey, oldest, rest. split; [done|]. intros entry after.
  assert (Hafter : after = Map_set key entry rest).
  { subst after. rewrite updateCache_cache, Hc, evict_oldest_tail.
    unfold Map_size in Hsz. by rewrite (proj2 (Z.geb_le _ _)) by lia. }
  simpl in Hnd. apply NoDup_cons in Hnd as [Hnotin Hnd].
  unfold Map_size in *. simpl in Hsz. split.
  - intros Hne. apply Map_has_get in Hhas as [v Hv]. simpl in Hv.
    rewrite decide_False in Hv by done.
    assert (Hkeys : Map_keys after = Map_keys rest).
    { rewrite Hafter. by eapply Map_set_keys_present. }
    split; [done|]. split; [done|]. split; [|split].
    + apply Map_get_None. by rewrite Hkeys.
    + rewrite Hafter. apply Map_get_set_eq.
    + rewrite Hafter, (Map_set_length_present _ _ v) by done. lia.
  - intros ->.
    assert (Hnone : Map_get key rest = None) by by apply Map_get_None.
    rewrite Hafter, Map_set_absent by done. split; [done|].
    rewrite length_app. simpl. lia.
Qed.
End CacheFacts.

(** ** Properties of the Hot aggregation *)

Section HotFacts.
Variable CONFIG : Config.
Variable env : Environment.

Lemma Promise_all_absorb (endpoints : list string) :
  ∀ (raw : list (Promise (list json))) (w : World),
    Promise_all (zip_with absorb endpoints raw) w =
      (Ok (map contribution (settle endpoints raw w).1),
       (settle endpoints raw w).2).
Proof.
  induction endpoints as [|e es IH]; intros [|p ps] w; try done.
  cbn [zip_with Promise_all settle]. unfold absorb at 1, catch.
  destruct (p w) as [[l|err] w1].
  - rewrite IH. by destruct (settle es ps w1).
  - rewrite IH. by destruct (settle es ps _).
Qed.

Lemma settle_length (endpoints : list string) :
  ∀ (raw : list (Promise (list json))) (w : World),
    length raw = length endpoints ->
    length (settle endpoints raw w).1 = length endpoints.
Proof.
  induction endpoints as [|e es IH]; intros [|p ps] w Hlen; try done.
  cbn [settle]. destruct (p w) as [r w1].
  specialize (IH ps (match r with
                     | Ok _ => w1
                     | Throw err => emit (WarnHotFailed e err) w1
                     end) ltac:(by simplify_eq/=)).
  destruct (settle es ps _). simpl in *. by rewrite IH.
Qed.

Lemma all_failed_contribute_nothing (outcomes : list (Result (list json))) :
  Forall failed outcomes -> concat (map contribution outcomes) = [].
Proof. induction 1 as [|r rs [e ->] _ IH]; simpl; [done|by rewrite IH]. Qed.

(** The aggregation, for a configuration none of whose fan-out endpoints
    is Hot: its calls return, and its promise settles to the shuffle of
    the merged contributions. *)
Lemma fetchHotProducts_settles depth w :
  Forall (fun e => e ≠ "Hot") (otherCategories CONFIG) ->
  let seed := hot_seed (clock env (clock_reads w)) in
  ∃ raw w1 p,
    call_each (fetchProducts CONFIG env (S depth)) (otherCategories CONFIG)
      (emit (LogHotSeed seed) (snd (Date_now env w))) = Some (raw, w1) ∧
    length raw = length (otherCategories CONFIG) ∧
    fetchHotProducts CONFIG env (fetchProducts CONFIG env (S depth)) w
      = Some (p, w1) ∧
    ∀ w', p w' =
      (Ok (seededShuffle (Math_sin env)
             (concat (map contribution
                        (settle (otherCategories CONFIG) raw w').1)) seed),
       (settle (otherCategories CONFIG) raw w').2).
Proof.
  intros Hhot seed.
  destruct (call_each_fetchProducts CONFIG env depth _ Hhot
              (emit (LogHotSeed seed) (snd (Date_now env w))))
    as (raw & w1 & Hcall & Hlen & _).
  unfold fetchHotProducts. cbn [Date_now snd]. fold seed.
  change (emit (LogHotSeed seed) _) with
    (emit (LogHotSeed seed) (snd (Date_now env w))).
  destruct (decide (length (otherCategories CONFIG) = O)) as [Hz|Hnz].
  - destruct (otherCategories CONFIG); [|done].
    destruct raw; [|done]. simpl in Hcall. injection Hcall as <-.
    do 3 eexists. split; [done|]. split; [done|]. split; [done|].
    intros w'. done.
  - rewrite Hcall. do 3 eexists. split; [done|]. split; [done|].
    split; [done|]. intros w'. cbv beta zeta.
    by rewrite Promise_all_absorb.
Qed.

Lemma filter_valid_ok (products kept : list json) :
  filter_valid products = Ok kept -> Forall has_required_fields kept.
Proof.
  revert kept. induction products as [|p ps IH]; intros kept; simpl.
  - by intros [= <-].
  - destruct (is_valid p) as [keep|] eqn:Hv; [|done].
    destruct (filter_valid ps) as [kept'|]; [|done].
    intros [= <-]. specialize (IH kept' eq_refl).
    destruct keep; [|done]. constructor; [|done].
    assert (Hp : p ≠ JNull) by (by intros ->).
    rewrite (is_valid_spec p Hp) in Hv. injection Hv as Hv.
    by apply bool_decide_eq_true in Hv.
Qed.

(** A direct request that succeeds yields records that all carry the
    required fields. *)
Lemma fetchCategory_ok_valid endpoint wi w' kept w2 :
  (fetchCategory CONFIG env endpoint wi).1 w' = (Ok kept, w2) ->
  Forall has_required_fields kept.
Proof.
  unfold fetchCategory.
  destruct (fetchWithRetry CONFIG env (apiUrl CONFIG env endpoint) 0 wi) as [p w1].
  cbn [fst]. destruct (p w') as [[body|e] w3]; [|done].
  destruct (validProducts body) as [valid|e] eqn:Hv; [|done].
  intros [= <- _]. destruct body; try done. by eapply filter_valid_ok.
Qed.

Lemma fresh_entry_held endpoint w cached :
  fresh_entry CONFIG env endpoint w = Some cached ->
  Map_get endpoint (cache w) = Some cached.
Proof.
  unfold fresh_entry. destruct (CACHE_ENABLED CONFIG); [|done].
  destruct (Map_get endpoint (cache w)) as [c|]; [|done].
  destruct (_ <? _)%Z; [|done]. by intros [= ->].
Qed.

Lemma call_each_promises depth (endpoints : list string) :
  Forall (fun e => e ≠ "Hot") endpoints ->
  ∀ w raw w',
    call_each (fetchProducts CONFIG env (S depth)) endpoints w = Some (raw, w') ->
    Forall2 (category_promise CONFIG env (cache w)) endpoints raw.
Proof.
  induction 1 as [|e es He Hes IH]; intros w raw w'; cbn [call_each].
  - intros [= <- _]. constructor.
  - destruct (fetchProducts_sync CONFIG env depth e w He)
      as (p & w1 & Hp & Hc & _).
    rewrite Hp.
    destruct (call_each _ es w1) as [[ps w2]|] eqn:Hrest; [|done].
    intros [= <- _]. constructor.
    + destruct (fresh_entry CONFIG env e w) as [c|] eqn:Hf.
      * rewrite (fetchProducts_fresh CONFIG env _ _ _ c Hf) in Hp.
        injection Hp as <- _. left. exists c.
        split; [by eapply fresh_entry_held|done].
      * rewrite (fetchProducts_miss CONFIG env _ _ _ Hf He) in Hp.
        right. eexists. by injection Hp as <- _.
    + rewrite <- Hc. by eapply IH.
Qed.

Lemma settle_lists c (endpoints : list string) (raw : list (Promise (list json))) :
  Forall2 (category_promise CONFIG env c) endpoints raw ->
  ∀ w, Forall2 (category_list c) endpoints (settle endpoints raw w).1.
Proof.
  induction 1 as [|e p es ps Hp Hps IH]; intros w; cbn [settle].
  - constructor.
  - destruct (p w) as [r w1] eqn:Hpw.
    match goal with |- context [settle es ps ?w2] =>
      specialize (IH w2); destruct (settle es ps w2) as [rs w3] end.
    cbn [fst] in *. constructor; [|done].
    intros l ->. destruct Hp as [(cached & Hg & ->)|[wi ->]].
    + left. exists cached. split; [done|]. by injection Hpw as <- _.
    + right. by eapply fetchCategory_ok_valid.
Qed.

End HotFacts.

(** ** Properties of the shuffle *)

Section ShuffleFacts.
Variable Math_sin : Z -> Q.
Context {A : Type}.
Implicit Types (l a : list A) (i j : nat).

Lemma random_range (c : Z) :
  (0 <= fst (random Math_sin c))%Q /\ (fst (random Math_sin c) < 1)%Q.
Proof.
  unfold random; cbn [fst].
  set (x := (Math_sin c * inject_Z 10000)%Q).
  pose proof (Qfloor_le x) as Hlo.
  pose proof (Qlt_floor x) as Hhi.
  rewrite inject_Z_plus in Hhi. change (inject_Z 1) with 1%Q in Hhi.
  split; lra.
Qed.

(** The drawn index lies in [0, i]. *)
Lemma draw_index_range (r : Q) i :
  (0 <= r)%Q -> (r < 1)%Q -> 0 <= draw_index r i <= Z.of_nat i.
Proof.
  intros H0 H1. unfold draw_index.
  set (n := Z.of_nat (i + 1)).
  assert (Hn : (0 < inject_Z n)%Q).
  { change 0%Q with (inject_Z 0). rewrite <- Zlt_Qlt. subst n. lia. }
  split.
  - change 0 with (Qfloor (inject_Z 0)).
    apply Qfloor_resp_le. change (inject_Z 0) with 0%Q. nra.
  - assert (Hlt : (inject_Z (Qfloor (r * inject_Z n)) < inject_Z n)%Q).
    { eapply Qle_lt_trans; [apply Qfloor_le|]. nra. }
    rewrite <- Zlt_Qlt in Hlt. subst n. lia.
Qed.

Lemma insert_swap_head l j (x y : A) :
  l !! j = Some y -> y :: <[j := x]> l ≡ₚ x :: l.
Proof.
  revert j. induction l as [|a l IH]; intros [|j] Hj; simplify_eq/=.
  - apply Permutation_swap.
  - rewrite (Permutation_swap a y), (IH j Hj).
    apply Permutation_swap.
Qed.

Lemma insert_swap_Permutation l i j (x y : A) :
  l !! i = Some x -> l !! j = Some y ->
  <[j := x]> (<[i := y]> l) ≡ₚ l.
Proof.
  revert i j. induction l as [|a l IH]; intros [|i] [|j] Hi Hj; simplify_eq/=.
  - done.
  - by apply insert_swap_head.
  - by apply insert_swap_head.
  - f_equiv. by apply IH.
Qed.

Lemma swap_Permutation l i j : swap l i j ≡ₚ l.
Proof.
  unfold swap. destruct (l !! j) as [aj|] eqn:Hj; [|done].
  destruct (l !! i) as [ai|] eqn:Hi; [|done].
  by apply insert_swap_Permutation.
Qed.

Lemma swap_length l i j : length (swap l i j) = length l.
Proof.
  unfold swap. destruct (l !! j); [|done]. destruct (l !! i); [|done].
  by rewrite !length_insert.
Qed.

Lemma shuffle_loop_Permutation i c l : shuffle_loop Math_sin i c l ≡ₚ l.
Proof.
  revert c l. induction i as [|i IH]; intros c l; simpl; [done|].
  rewrite IH. apply swap_Permutation.
Qed.

Lemma shuffle_loop_in_range i c l :
  (i < length l)%nat -> accesses_in_range Math_sin i c l.
Proof.
  revert c l. induction i as [|i IH]; intros c l Hi; simpl; [done|].
  destruct (random_range c) as [H0 H1]. cbn [random fst] in H0, H1.
  repeat split; try done.
  - by apply (draw_index_range _ (S i)).
  - by apply (draw_index_range _ (S i)).
  - apply IH. rewrite swap_length. lia.
Qed.

Lemma swap_ref_spec (σ : gmap positive (list A)) sh a i j :
  σ !! sh = Some a -> swap_ref sh i j σ = <[sh := swap a i j]> σ.
Proof. intros H. unfold swap_ref. by rewrite H. Qed.

Lemma shuffle_loop_ref_spec i c (sh : positive) (σ : gmap positive (list A)) a :
  σ !! sh = Some a ->
  shuffle_loop_ref Math_sin i c sh σ = <[sh := shuffle_loop Math_sin i c a]> σ.
Proof.
  revert c σ a. induction i as [|i IH]; intros c σ a Hsh; simpl.
  - symmetry. by apply insert_id.
  - rewrite (swap_ref_spec σ sh a) by done.
    erewrite IH by apply lookup_insert_eq.
    by rewrite insert_insert_eq.
Qed.

Lemma seededShuffle_ref_spec array seed (σ : gmap positive (list A)) a :
  σ !! array = Some a ->
  seededShuffle_ref Math_sin array seed σ =
    Some (fresh (dom σ), <[fresh (dom σ) := seededShuffle Math_sin a seed]> σ).
Proof.
  intros Ha. unfold seededShuffle_ref, spread. rewrite Ha.
  rewrite lookup_insert_eq.
  erewrite shuffle_loop_ref_spec by apply lookup_insert_eq.
  by rewrite insert_insert_eq.
Qed.

Lemma seededShuffle_Permutation a seed : seededShuffle Math_sin a seed ≡ₚ a.
Proof. apply shuffle_loop_Permutation. Qed.

Lemma seededShuffle_in_range a seed :
  accesses_in_range Math_sin (length a - 1) seed a.
Proof.
  destruct a as [|x a]; [done|]. apply shuffle_loop_in_range. simpl. lia.
Qed.

Lemma fresh_ref_unused (σ : gmap positive (list A)) : σ !! fresh (dom σ) = None.
Proof. apply not_elem_of_dom, is_fresh. Qed.


(** A second call, made in the store the first call left. *)
Lemma seededShuffle_ref_twice
    (σ : gmap positive (list A)) (array : positive) (a : list A) (seed : Z) :
  σ !! array = Some a ->
  ∃ s1 σ1 s2 σ2,
    seededShuffle_ref Math_sin array seed σ = Some (s1, σ1) ∧
    seededShuffle_ref Math_sin array seed σ1 = Some (s2, σ2) ∧
    σ2 !! s1 = Some (seededShuffle Math_sin a seed) ∧
    σ2 !! s2 = Some (seededShuffle Math_sin a seed).
Proof.
  intros Ha.
  pose (out := seededShuffle Math_sin a seed).
  pose (σ1 := <[fresh (dom σ) := out]> σ).
  assert (Ha1 : σ1 !! array = Some a).
  { unfold σ1. rewrite lookup_insert_ne; [done|]. intros Heq.
    pose proof (fresh_ref_unused σ) as Hf. rewrite Heq in Hf. congruence. }
  exists (fresh (dom σ)), σ1, (fresh (dom σ1)), (<[fresh (dom σ1) := out]> σ1).
  split; [by apply seededShuffle_ref_spec|].
  split; [by apply seededShuffle_ref_spec|].
  split; [|apply lookup_insert_eq].
  rewrite lookup_insert_ne; [apply lookup_insert_eq|].
  intros Heq. pose proof (fresh_ref_unused σ1) as Hf.
  rewrite Heq in Hf. unfold σ1 in Hf at 1.
  by rewrite lookup_insert_eq in Hf.
Qed.

Lemma hot_seed_bucket (now k : Z) :
  k * WINDOW_MS <= now < (k + 1) * WINDOW_MS -> hot_seed now = k.
Proof.
  intros H. unfold hot_seed. symmetry.
  apply (Z.div_unique now WINDOW_MS k (now - k * WINDOW_MS));
    unfold WINDOW_MS in *; lia.
Qed.
End ShuffleFacts.

Section Determinism.
Variable CONFIG : Config.
Variable env : Environment.

End Determinism.

(** ** More on the retrying fetch *)

Section RetryMore.
Variable CONFIG : Config.
Variable env : Environment.

(** A call at retry count [rc] whose first [j] attempts fail and whose next
    attempt is answered, with [j] retries allowed. *)
Lemma fetchWithRetry_answered_after (url : string) (body : json) (j : nat) :
  ∀ (rc : Z) (w : World),
    ((0 < j)%nat -> rc + Z.of_nat j <= API_RETRY_COUNT CONFIG) ->
    (∀ k, (k < j)%nat -> ∃ e, fails (upstream env (requests w + k) url) e) ->
    attempt_result (upstream env (requests w + j) url) = Ok body ->
    await (fetchWithRetry CONFIG env url rc) w =
      (Ok body,
       {| cache := cache w; clock_reads := clock_reads w;
          requests := requests w + S j;
          trace := trace w ++ EFetch url ::
                   retries url (API_RETRY_DELAY CONFIG) rc j |}).
Proof.
  induction j as [|j IH]; intros rc w Hrc Hfail Hok.
  - rewrite await_fetchWithRetry. simpl.
    rewrite Nat.add_0_r in Hok. rewrite Hok. do 2 f_equal. lia.
  - rewrite await_fetchWithRetry. simpl.
    destruct (Hfail O ltac:(lia)) as [e0 He0].
    rewrite Nat.add_0_r in He0. rewrite He0.
    specialize (Hrc ltac:(lia)).
    rewrite decide_True by lia.
    rewrite (IH (rc + 1)).
    + simpl. do 2 f_equal; [lia|]. by rewrite <- !app_assoc.
    + lia.
    + intros k Hk. simpl.
      destruct (Hfail (S k) ltac:(lia)) as [e He]. exists e.
      by replace (S (requests w + k))%nat with (requests w + S k)%nat by lia.
    + simpl.
      by replace (S (requests w + j))%nat with (requests w + S j)%nat by lia.
Qed.

(** X1. When the first [j] attempts fail and attempt [j] is answered, with
    [j <= RETRY_COUNT], [fetchWithRetry] returns that answer after exactly
    [j + 1] requests, having waited [RETRY_DELAY * 1], ..., [RETRY_DELAY * j]
    between them; the earlier failures are not reported. *)
Theorem fetchWithRetry_returns_the_first_answer
    (url : string) (body : json) (j : nat) (w : World) :
  Z.of_nat j <= API_RETRY_COUNT CONFIG ->
  (∀ k, (k < j)%nat -> ∃ e, fails (upstream env (requests w + k) url) e) ->
  attempt_result (upstream env (requests w + j) url) = Ok body ->
  ∃ w',
    await (fetchWithRetry CONFIG env url 0) w = (Ok body, w') ∧
    requests w' = (requests w + j + 1)%nat ∧
    trace w' = trace w ++ EFetch url :: retries url (API_RETRY_DELAY CONFIG) 0 j ∧
    count_fetches (EFetch url :: retries url (API_RETRY_DELAY CONFIG) 0 j) = S j.
Proof.
  intros Hj Hfail Hok. eexists. split.
  - apply (fetchWithRetry_answered_after url body j 0 w); [lia|done|done].
  - simpl. split; [lia|]. split; [done|].
    change (count_fetches (EFetch url :: ?t)) with (S (count_fetches t)).
    by rewrite count_fetches_retries.
Qed.

(** The shape of every call: a first request, then some retries, never more
    than the retry count allows; the result is that of the last attempt,
    the attempts before it failed, and the call stops early only on an
    answer. *)
Lemma fetchWithRetry_shape (url : string) (n : nat) :
  ∀ (rc : Z) (w : World),
    Z.to_nat (API_RETRY_COUNT CONFIG - rc) = n ->
    ∃ j,
      (j <= n)%nat ∧
      await (fetchWithRetry CONFIG env url rc) w =
        (attempt_result (upstream env (requests w + j) url),
         {| cache := cache w; clock_reads := clock_reads w;
            requests := requests w + S j;
            trace := trace w ++ EFetch url ::
                     retries url (API_RETRY_DELAY CONFIG) rc j |}) ∧
      (∀ k, (k < j)%nat -> ∃ e, fails (upstream env (requests w + k) url) e) ∧
      ((j < n)%nat ->
       ∃ body, attempt_result (upstream env (requests w + j) url) = Ok body).
Proof.
  assert (Hone : ∀ (r : Result json) (w : World) rc,
    (r, {| cache := cache w; clock_reads := clock_reads w;
           requests := S (requests w); trace := trace w ++ [EFetch url] |}) =
    (r, {| cache := cache w; clock_reads := clock_reads w;
           requests := requests w + 1;
           trace := trace w ++ EFetch url ::
                    retries url (API_RETRY_DELAY CONFIG) rc 0 |})).
  { intros. do 2 f_equal. lia. }
  induction n as [|n IH]; intros rc w Hn; rewrite await_fetchWithRetry; simpl.
  - exists O. rewrite Nat.add_0_r. split; [lia|]. split; [|split; intros; lia].
    destruct (attempt_result _) as [body|e]; [apply Hone|].
    rewrite decide_False by lia. apply Hone.
  - destruct (attempt_result (upstream env (requests w) url)) as [body|e] eqn:Ha.
    + exists O. rewrite Nat.add_0_r, Ha. split; [lia|]. split; [apply Hone|].
      split; [intros; lia|]. intros _. by exists body.
    + destruct (decide _) as [Hlt|Hge]; [|lia].
      edestruct (IH (rc + 1)) as (j & Hj & -> & Hbefore & Hearly); [lia|].
      simpl in Hbefore, Hearly.
      exists (S j). split; [lia|]. simpl.
      replace (requests w + S j)%nat with (S (requests w + j)) by lia.
      split; [|split].
      * do 2 f_equal; [lia|]. by rewrite <- !app_assoc.
      * intros [|k] Hk.
        -- exists e. by rewrite Nat.add_0_r.
        -- destruct (Hbefore k ltac:(lia)) as [e' He']. exists e'.
           by replace (requests w + S k)%nat with (S (requests w + k))%nat by lia.
      * intros Hjn. apply Hearly. lia.
Qed.

(** X2. Whatever the upstream does, one call of [fetchWithRetry] issues
    between 1 and [RETRY_COUNT + 1] requests (exactly one when [RETRY_COUNT]
    is zero or negative), with its requests and waits alternating as in the
    all-failing case.  Its outcome is that of the last attempt it made, all
    the attempts before failed, and it stops short of [RETRY_COUNT + 1]
    only on an answer.  It leaves the cache and the clock alone. *)
Theorem fetchWithRetry_issues_at_most_retry_count_plus_one_requests
    (url : string) (w : World) :
  ∃ j w',
    (j <= Z.to_nat (API_RETRY_COUNT CONFIG))%nat ∧
    await (fetchWithRetry CONFIG env url 0) w =
      (attempt_result (upstream env (requests w + j) url), w') ∧
    requests w' = (requests w + j + 1)%nat ∧
    trace w' = trace w ++ EFetch url :: retries url (API_RETRY_DELAY CONFIG) 0 j ∧
    cache w' = cache w ∧ clock_reads w' = clock_reads w ∧
    (∀ k, (k < j)%nat -> ∃ e, fails (upstream env (requests w + k) url) e) ∧
    ((j < Z.to_nat (API_RETRY_COUNT CONFIG))%nat ->
     ∃ body, attempt_result (upstream env (requests w + j) url) = Ok body).
Proof.
  destruct (fetchWithRetry_shape url _ 0 w eq_refl)
    as (j & Hj & Hrun & Hbefore & Hearly).
  rewrite Z.sub_0_r in Hj, Hearly.
  exists j. eexists. split; [done|]. split; [exact Hrun|].
  simpl. split; [lia|]. done.
Qed.
End RetryMore.

(** ** More on the direct path and on the cache *)

Section DirectMore.
Variable CONFIG : Config.
Variable env : Environment.

Lemma handleError_classified (e : JsError) : classified CONFIG (handleError CONFIG e).
Proof. exists (classify e). apply handleError_kind. Qed.

(** Every call for a category other than Hot returns. *)
Lemma run_direct depth endpoint w :
  endpoint ≠ "Hot" ->
  (∃ cached, fresh_entry CONFIG env endpoint w = Some cached ∧
     run CONFIG env (S depth) endpoint w =
       Some (Ok (data cached),
             emit (LogCacheHit endpoint) (snd (Date_now env w)))) ∨
  (fresh_entry CONFIG env endpoint w = None ∧
   run CONFIG env (S depth) endpoint w =
     Some (await (fetchCategory CONFIG env endpoint)
             (after_cache_check CONFIG env endpoint w))).
Proof.
  intros Hne. destruct (fresh_entry CONFIG env endpoint w) as [c|] eqn:Hf.
  - left. exists c. split; [done|]. by apply run_fresh.
  - right. split; [done|]. by apply run_miss.
Qed.

(** X3. A call for a direct category that fails raises one of the three
    configured messages, has sent at least one request, and leaves the cache
    exactly as it was: a failure is never stored, and an entry held for the
    key, stale as it must be, is neither served nor removed. *)
Theorem failed_direct_call_leaves_the_cache_alone
    (depth : nat) (endpoint : string) (w : World) :
  endpoint ≠ "Hot" ->
  ∃ r w',
    run CONFIG env (S depth) endpoint w = Some (r, w') ∧
    ∀ e, r = Throw e ->
      classified CONFIG e ∧
      cache w' = cache w ∧
      (requests w < requests w')%nat ∧
      fresh_entry CONFIG env endpoint w = None.
Proof.
  intros Hne.
  destruct (run_direct depth endpoint w Hne) as [(c & _ & ->)|[Hf ->]].
  - do 2 eexists. split; [done|]. by intros e [=].
  - rewrite await_fetchCategory.
    pose proof (fetchWithRetry_frame0 CONFIG env (apiUrl CONFIG env endpoint)
                  (after_cache_check CONFIG env endpoint w)) as Hframe.
    destruct (await _ _) as [r0 w2].
    destruct Hframe as (Hc & _ & Hr & _).
    rewrite after_cache_check_cache in Hc.
    rewrite after_cache_check_requests in Hr.
    destruct (match r0 with Ok body => validProducts body | Throw e => Throw e end)
      as [valid|e0].
    + do 2 eexists. split; [done|]. by intros e [=].
    + do 2 eexists. split; [done|]. intros e [= <-].
      split; [apply handleError_classified|]. by repeat split.
Qed.

Lemma filter_valid_null (products : list json) :
  JNull ∈ products ->
  filter_valid products =
    Throw (TypeError "Cannot read properties of null (reading 'title_clean')").
Proof.
  induction products as [|p ps IH]; intros Hin.
  - by apply elem_of_nil in Hin.
  - apply elem_of_cons in Hin. destruct p; try done;
      (destruct Hin as [Heq|Hin]; [discriminate Heq|]);
      cbn [filter_valid is_valid]; by rewrite (IH Hin).
Qed.

(** The filter throws on a malformed body, and what it throws is neither an
    abort nor a transport failure. *)
Lemma validProducts_malformed (body : json) :
  malformed body ->
  ∃ e, validProducts body = Throw e ∧ classify e = LoadingError.
Proof.
  destruct body; simpl; intros H; try (by eexists).
  eexists. split; [by apply filter_valid_null|done].
Qed.

(** X4. When the feed answers a direct call with a success status and a
    body on which the filter throws (not an array, or an array with a [null]
    element), the call raises the loading error after that single request:
    a failure of the validation is not retried, and nothing is stored. *)
Theorem malformed_body_is_not_retried
    (depth : nat) (endpoint : string) (w : World)
    (status : Z) (statusText : string) (body : json) :
  endpoint ≠ "Hot" ->
  fresh_entry CONFIG env endpoint w = None ->
  upstream env (requests w) (apiUrl CONFIG env endpoint)
    = Response status statusText (Ok body) ->
  response_ok status = true ->
  malformed body ->
  ∃ e w',
    validProducts body = Throw e ∧
    run CONFIG env (S depth) endpoint w
      = Some (Throw (Error (LOADING_ERROR CONFIG)), w') ∧
    requests w' = S (requests w) ∧
    cache w' = cache w ∧
    trace w' = trace w ++ [EFetch (apiUrl CONFIG env endpoint);
                           ErrorFetching endpoint e].
Proof.
  intros Hne Hf Hup Hok Hbad.
  destruct (validProducts_malformed body Hbad) as (e & Hv & Hk).
  exists e. eexists. split; [done|].
  rewrite (run_miss CONFIG env _ _ _ Hf Hne), await_fetchCategory.
  rewrite (fetchWithRetry_answered_after CONFIG env _ body 0 0).
  - rewrite Hv. split.
    + do 2 f_equal. by rewrite handleError_kind, Hk.
    + simpl. rewrite after_cache_check_requests, after_cache_check_cache,
        after_cache_check_trace.
      split; [lia|]. split; [done|]. by rewrite <- app_assoc.
  - lia.
  - intros k Hk'. lia.
  - rewrite after_cache_check_requests, Nat.add_0_r, Hup. simpl. by rewrite Hok.
Qed.
End DirectMore.

Section CacheMore.
Variable CONFIG : Config.
Variable env : Environment.
Implicit Types (c : list (string * CacheEntry)) (w : World) (k key : string).

Lemma Map_get_set_ne {V} k key (v : V) (m : list (string * V)) :
  k ≠ key -> Map_get k (Map_set key v m) = Map_get k m.
Proof.
  intros Hne. induction m as [|[k' v'] m IH]; simpl.
  - by rewrite decide_False.
  - destruct (decide (key = k')) as [->|Hk]; simpl.
    + by rewrite !decide_False.
    + by rewrite IH.
Qed.

Lemma Map_set_NoDup {V} key (v : V) (m : list (string * V)) :
  NoDup (Map_keys m) -> NoDup (Map_keys (Map_set key v m)).
Proof.
  intros Hnd. destruct (Map_get key m) as [v0|] eqn:Hg.
  - by rewrite (Map_set_keys_present _ _ v0).
  - rewrite Map_set_absent by done. unfold Map_keys. rewrite map_app. simpl.
    apply NoDup_app. split; [done|]. split; [|apply NoDup_singleton].
    intros x Hx ->%list_elem_of_singleton. by apply Map_get_None in Hg.
Qed.

Lemma Map_get_tail {V} k (m : list (string * V)) :
  NoDup (Map_keys m) ->
  Map_get k (tail m) =
    if decide (Map_first_key m = Some k) then None else Map_get k m.
Proof.
  destruct m as [|[k' v'] m]; simpl; [first [done|by case_decide]|].
  intros [Hnotin _]%NoDup_cons. unfold Map_first_key. simpl.
  destruct (decide (Some k' = Some k)) as [[= ->]|Hne].
  - by apply Map_get_None.
  - rewrite decide_False; [done|]. by intros ->.
Qed.

Lemma evict_oldest_NoDup c :
  NoDup (Map_keys c) -> NoDup (Map_keys (evict_oldest CONFIG c)).
Proof.
  rewrite evict_oldest_tail. destruct (_ >=? _)%Z; [|done].
  destruct c as [|x c]; [done|]. simpl. by intros [_ ?]%NoDup_cons.
Qed.

Lemma evict_oldest_get k c :
  NoDup (Map_keys c) ->
  Map_get k (evict_oldest CONFIG c) =
    if decide (evicted_key CONFIG c = Some k) then None else Map_get k c.
Proof.
  intros Hnd. rewrite evict_oldest_tail. unfold evicted_key, Map_size.
  destruct (_ >=? _)%Z; [by apply Map_get_tail|]. by rewrite decide_False.
Qed.

(** A store leaves at most [max 1 MAX_SIZE] entries behind it. *)
Lemma updateCache_size key data w :
  Z.of_nat (Map_size (cache w)) <= Z.max 1 (CACHE_MAX_SIZE CONFIG) ->
  Z.of_nat (Map_size (cache (updateCache CONFIG env key data w)))
    <= Z.max 1 (CACHE_MAX_SIZE CONFIG).
Proof.
  intros Hsz. rewrite updateCache_cache. unfold Map_size in *.
  set (v := {| data := data; timestamp := _ |}).
  pose proof (Map_set_length_le key v (evict_oldest CONFIG (cache w))) as Hle.
  rewrite evict_oldest_tail in *.
  destruct (_ >=? _)%Z eqn:Hfull.
  - destruct (cache w) as [|x c]; simpl in *; lia.
  - rewrite Z.geb_leb in Hfull. apply Z.leb_gt in Hfull. lia.
Qed.

(** X6. A store makes its entry the one found under the key, stamped with
    the clock read by the store; it keeps the keys of the map distinct; of
    the other keys it changes nothing but the one it evicts, the first key
    of a full map, which is no longer found; and it never leaves more than
    [max 1 MAX_SIZE] entries in a cache that held no more than that. *)
Theorem updateCache_stores_and_keeps_the_rest
    (w : World) (key : string) (data : list json) :
  NoDup (Map_keys (cache w)) ->
  let after := cache (updateCache CONFIG env key data w) in
  Map_get key after =
    Some {| data := data; timestamp := clock env (clock_reads w) |} ∧
  NoDup (Map_keys after) ∧
  (∀ k, k ≠ key ->
     Map_get k after =
       if decide (evicted_key CONFIG (cache w) = Some k) then None
       else Map_get k (cache w)) ∧
  (Z.of_nat (Map_size (cache w)) <= Z.max 1 (CACHE_MAX_SIZE CONFIG) ->
   Z.of_nat (Map_size after) <= Z.max 1 (CACHE_MAX_SIZE CONFIG)).
Proof.
  intros Hnd after. subst after. split; [|split; [|split]].
  - rewrite updateCache_cache. apply Map_get_set_eq.
  - rewrite updateCache_cache. by apply Map_set_NoDup, evict_oldest_NoDup.
  - intros k Hne. rewrite updateCache_cache, Map_get_set_ne by done.
    by apply evict_oldest_get.
  - apply updateCache_size.
Qed.

Lemma run_miss_stores depth endpoint w l w' :
  CACHE_ENABLED CONFIG = true ->
  fresh_entry CONFIG env endpoint w = None ->
  run CONFIG env (S depth) endpoint w = Some (Ok l, w') ->
  ∃ w2, w' = updateCache CONFIG env endpoint l w2.
Proof.
  intros Hen Hf. destruct (decide (endpoint = "Hot")) as [->|Hne].
  - unfold run. rewrite (fetchProducts_miss_Hot CONFIG env _ _ Hf).
    destruct (fetchHotProducts _ _ _ _) as [[p w1]|]; [|done].
    destruct (p w1) as [[hot|e] w2]; [|done].
    rewrite Hen. intros [= <- <-]. by exists w2.
  - rewrite (run_miss CONFIG env _ _ _ Hf Hne), await_fetchCategory.
    destruct (await _ _) as [r0 w2].
    destruct (match r0 with Ok body => validProducts body | Throw e => Throw e end);
      [|done].
    rewrite Hen. intros [= <- <-]. by exists w2.
Qed.

(** X5. With caching enabled, a call that missed the cache and succeeded
    has stored the very list it returned under its key, stamped with the last
    clock reading; the next call for the key, if the clock then reads less
    than [EXPIRY_TIME] later, returns that list again with no request and
    leaves the cache as it is.  This holds for Hot as for a direct category,
    and for an empty list as for any other. *)
Theorem stored_result_answers_the_next_call
    (depth : nat) (endpoint : string) (w w' : World) (l : list json) :
  CACHE_ENABLED CONFIG = true ->
  fresh_entry CONFIG env endpoint w = None ->
  run CONFIG env (S depth) endpoint w = Some (Ok l, w') ->
  Map_get endpoint (cache w') =
    Some {| data := l; timestamp := clock env (pred (clock_reads w')) |} ∧
  (clock env (clock_reads w') - clock env (pred (clock_reads w'))
     < CACHE_EXPIRY_TIME CONFIG ->
   ∃ w'', run CONFIG env (S depth) endpoint w' = Some (Ok l, w'') ∧
          requests w'' = requests w' ∧ cache w'' = cache w').
Proof.
  intros Hen Hf Hrun.
  destruct (run_miss_stores _ _ _ _ _ Hen Hf Hrun) as [w2 ->].
  assert (Hget : Map_get endpoint (cache (updateCache CONFIG env endpoint l w2)) =
            Some {| data := l; timestamp := clock env (clock_reads w2) |}).
  { rewrite updateCache_cache. apply Map_get_set_eq. }
  split; [exact Hget|]. intros Hlt. eexists. split.
  - apply (run_fresh CONFIG env _ _ _
             {| data := l; timestamp := clock env (clock_reads w2) |}).
    unfold fresh_entry. rewrite Hen, Hget.
    by rewrite (proj2 (Z.ltb_lt _ _)).
  - done.
Qed.
End CacheMore.

(** ** Invariants of the service *)

Section Invariant.
Variable CONFIG : Config.
Variable env : Environment.
Variable I : list (string * CacheEntry) -> Prop.
Hypothesis I_store :
  CACHE_ENABLED CONFIG = true ->
  ∀ c key entry,
    I c -> Forall has_required_fields (data entry) ->
    I (Map_set key entry (evict_oldest CONFIG c)).
Hypothesis I_valid : CACHE_ENABLED CONFIG = true -> ∀ c, I c -> valid_cache c.

(** The two halves of a retrying fetch: the call sends one request; what
    follows sends at most as many as there are retries left.  Neither
    touches the cache. *)
Lemma fetchWithRetry_halves (url : string) (rc : Z) (w w' : World) :
  cache (fetchWithRetry CONFIG env url rc w).2 = cache w ∧
  requests (fetchWithRetry CONFIG env url rc w).2 = S (requests w) ∧
  cache ((fetchWithRetry CONFIG env url rc w).1 w').2 = cache w' ∧
  (requests w' <= requests ((fetchWithRetry CONFIG env url rc w).1 w').2
     <= requests w' + Z.to_nat (API_RETRY_COUNT CONFIG - rc))%nat.
Proof.
  rewrite fetchWithRetry_equation_1. cbn [fetch fst snd cache requests].
  split; [done|]. split; [done|].
  destruct (attempt_result _); [simpl; split; [done|lia]|].
  destruct (decide _) as [Hlt|]; [|simpl; split; [done|lia]].
  change (λ H : World, fetchWithRetry CONFIG env url (rc + 1) H)
    with (fetchWithRetry CONFIG env url (rc + 1)).
  match goal with |- context [await _ ?w3] =>
    destruct (fetchWithRetry_shape CONFIG env url _ (rc + 1) w3 eq_refl)
      as (j & Hj & -> & _) end.
  cbn [snd cache requests delay emit]. split; [done|]. lia.
Qed.

Lemma fetchCategory_sound endpoint wi : sound CONFIG I (fetchCategory CONFIG env endpoint wi).1.
Proof.
  intros w Hw.
  assert (Hshape : ∀ x : Result (list json) * World,
            (fetchCategory CONFIG env endpoint wi).1 w = x ->
            I (cache x.2) ∧ result_in_order CONFIG x.1); [|by eauto].
  intros [r w'] Hx.
  assert (Hvalid : ∀ l, r = Ok l -> Forall has_required_fields l).
  { intros l ->. by eapply fetchCategory_ok_valid. }
  revert Hx. unfold fetchCategory.
  pose proof (fetchWithRetry_halves (apiUrl CONFIG env endpoint) 0 wi w)
    as (_ & _ & Hc & _).
  destruct (fetchWithRetry CONFIG env (apiUrl CONFIG env endpoint) 0 wi) as [p w1].
  cbn [fst snd] in *. destruct (p w) as [r0 w2]. cbn [snd] in Hc.
  destruct (match r0 with Ok body => validProducts body | Throw e => Throw e end)
    as [valid|e]; intros [= <- <-]; cbn [fst snd].
  - split; [|by apply Hvalid].
    destruct (CACHE_ENABLED CONFIG) eqn:Hen; [|by rewrite Hc].
    rewrite updateCache_cache. apply I_store; [done|by rewrite Hc|].
    by apply Hvalid.
  - split; [by rewrite <- Hc in Hw|]. apply handleError_classified.
Qed.

Lemma resolved_sound (l : list json) :
  Forall has_required_fields l -> sound CONFIG I (resolved l).
Proof. by intros Hl w Hw. Qed.

Lemma absorb_sound endpoint p : sound CONFIG I p -> sound CONFIG I (absorb endpoint p).
Proof.
  intros Hp w Hw. unfold absorb, catch.
  destruct (Hp w Hw) as [Hc Hr]. destruct (p w) as [[l|e] w1]; [done|].
  split; [done|]. constructor.
Qed.

Lemma Promise_all_sound (ps : list (Promise (list json))) :
  Forall (sound CONFIG I) ps ->
  ∀ w, I (cache w) ->
    I (cache (Promise_all ps w).2) ∧
    match (Promise_all ps w).1 with
    | Ok ls => Forall (Forall has_required_fields) ls
    | Throw e => classified CONFIG e
    end.
Proof.
  induction 1 as [|p ps Hp Hps IH]; intros w Hw; cbn [Promise_all].
  - split; [done|]. constructor.
  - destruct (Hp w Hw) as [Hc Hr]. destruct (p w) as [r w1].
    destruct (IH w1 Hc) as [Hc' Hr']. destruct (Promise_all ps w1) as [rs w2].
    cbn [fst snd] in *. split; [done|].
    destruct r as [l|e]; [|done]. destruct rs as [ls|e]; [|done].
    by constructor.
Qed.

Lemma seededShuffle_Forall {A} (P : A -> Prop) sin (a : list A) seed :
  Forall P a -> Forall P (seededShuffle sin a seed).
Proof. intros H. by rewrite seededShuffle_Permutation. Qed.

Lemma valid_cache_lookup c key cached :
  valid_cache c -> Map_get key c = Some cached ->
  Forall has_required_fields (data cached).
Proof.
  unfold valid_cache. induction c as [|[k v] c IH]; simpl; [done|].
  intros [Hv Hc]%Forall_cons. destruct (decide (key = k)).
  - by intros [= <-].
  - by apply IH.
Qed.

(** The calls of the fan-out leave the cache alone, and their promises are
    sound, when each call is such. *)
Lemma call_each_sound
    (call : string -> World -> option (Promise (list json) * World))
    (endpoints : list string) :
  (∀ e w p w1, I (cache w) -> call e w = Some (p, w1) ->
               cache w1 = cache w ∧ sound CONFIG I p) ->
  ∀ w raw w',
    I (cache w) -> call_each call endpoints w = Some (raw, w') ->
    cache w' = cache w ∧ Forall (sound CONFIG I) raw.
Proof.
  intros Hcall. induction endpoints as [|e es IH]; intros w raw w' Hw; simpl.
  - by intros [= <- <-].
  - destruct (call e w) as [[p w1]|] eqn:Hp; [|done].
    destruct (Hcall _ _ _ _ Hw Hp) as [Hc1 Hs1].
    destruct (call_each call es w1) as [[ps w2]|] eqn:Hps; [|done].
    intros [= <- <-].
    destruct (IH w1 ps w2) as [Hc2 Hs2]; [by rewrite Hc1|done|].
    split; [congruence|by constructor].
Qed.

Lemma zip_with_absorb_sound (endpoints : list string) :
  ∀ raw, Forall (sound CONFIG I) raw ->
         Forall (sound CONFIG I) (zip_with absorb endpoints raw).
Proof.
  induction endpoints as [|e es IH]; intros [|p ps] H; simpl; try constructor.
  - apply absorb_sound. by apply Forall_cons in H as [? _].
  - apply IH. by apply Forall_cons in H as [_ ?].
Qed.

Lemma fetchHotProducts_sound
    (call : string -> World -> option (Promise (list json) * World)) :
  (∀ e w p w1, I (cache w) -> call e w = Some (p, w1) ->
               cache w1 = cache w ∧ sound CONFIG I p) ->
  ∀ w p w1,
    I (cache w) -> fetchHotProducts CONFIG env call w = Some (p, w1) ->
    cache w1 = cache w ∧ sound CONFIG I p.
Proof.
  intros Hcall w p w1 Hw. unfold fetchHotProducts. cbn [Date_now].
  destruct (decide _).
  - intros [= <- <-]. split; [done|]. by apply resolved_sound.
  - destruct (call_each _ _ _) as [[raw w3]|] eqn:Hraw; [|done].
    intros [= <- <-].
    edestruct (call_each_sound call (otherCategories CONFIG) Hcall) as [Hc Hs];
      [|exact Hraw|]; [exact Hw|].
    split; [done|]. intros w' Hw'.
    destruct (Promise_all_sound _
                (zip_with_absorb_sound (otherCategories CONFIG) _ Hs) w' Hw')
      as [Hc' Hr].
    destruct (Promise_all _ w') as [[ls|e] w4]; cbn [fst snd] in *; [|done].
    split; [done|]. by apply seededShuffle_Forall, Forall_concat.
Qed.

(** Every call of [fetchProducts] that returns leaves the cache alone while
    it runs synchronously, and its promise is sound. *)
Lemma fetchProducts_sound (depth : nat) :
  ∀ e w p w1,
    I (cache w) -> fetchProducts CONFIG env depth e w = Some (p, w1) ->
    cache w1 = cache w ∧ sound CONFIG I p.
Proof.
  induction depth as [|depth IH]; intros e w p w1 Hw; [done|].
  destruct (fresh_entry CONFIG env e w) as [c|] eqn:Hf.
  - rewrite (fetchProducts_fresh _ _ _ _ _ c Hf). intros [= <- <-].
    split; [done|]. apply resolved_sound.
    assert (Hen : CACHE_ENABLED CONFIG = true).
    { unfold fresh_entry in Hf. by destruct (CACHE_ENABLED CONFIG). }
    eapply valid_cache_lookup; [by apply I_valid|by eapply fresh_entry_held].
  - destruct (decide (e = "Hot")) as [->|Hne].
    + rewrite (fetchProducts_miss_Hot _ _ _ _ Hf).
      destruct (fetchHotProducts _ _ _ _) as [[q w2]|] eqn:Hq; [|done].
      intros [= <- <-].
      destruct (fetchHotProducts_sound _ IH
                  (after_cache_check CONFIG env "Hot" w) q w2) as [Hc Hs];
        [by rewrite after_cache_check_cache|done|].
      rewrite after_cache_check_cache in Hc. split; [done|].
      intros w' Hw'. destruct (Hs w' Hw') as [Hc' Hr].
      destruct (q w') as [[hot|err] w3]; cbn [fst snd] in *.
      * split; [|done]. destruct (CACHE_ENABLED CONFIG) eqn:Hen; [|done].
        rewrite updateCache_cache. by apply I_store.
      * split; [done|]. apply handleError_classified.
    + rewrite (fetchProducts_miss _ _ _ _ _ Hf Hne).
      pose proof (fetchCategory_sound e (after_cache_check CONFIG env e w)) as Hs.
      assert (Hc : cache (fetchCategory CONFIG env e
                            (after_cache_check CONFIG env e w)).2 = cache w).
      { unfold fetchCategory.
        pose proof (fetchWithRetry_halves (apiUrl CONFIG env e) 0
                      (after_cache_check CONFIG env e w) w) as (Hc & _).
        destruct (fetchWithRetry _ _ _ _ _) as [q w2]. cbn [snd] in *.
        by rewrite Hc, after_cache_check_cache. }
      destruct (fetchCategory CONFIG env e _) as [p' w1'].
      by intros [= <- <-].
Qed.

Lemma run_sound depth e w r w' :
  I (cache w) -> run CONFIG env depth e w = Some (r, w') ->
  I (cache w') ∧ result_in_order CONFIG r.
Proof.
  intros Hw. unfold run.
  destruct (fetchProducts CONFIG env depth e w) as [[p w1]|] eqn:Hp; [|done].
  destruct (fetchProducts_sound _ _ _ _ _ Hw Hp) as [Hc Hs].
  intros [= Hr]. rewrite <- Hc in Hw. destruct (Hs w1 Hw) as [H1 H2].
  rewrite Hr in H1, H2. done.
Qed.
End Invariant.

Section Totality.
Variable CONFIG : Config.
Variable env : Environment.
Hypothesis no_Hot_endpoint : Forall (fun e => e ≠ "Hot") (otherCategories CONFIG).

(** A call for Hot returns a list, never a failure. *)
Lemma run_Hot depth w :
  ∃ l w', run CONFIG env (S (S depth)) "Hot" w = Some (Ok l, w').
Proof.
  destruct (fresh_entry CONFIG env "Hot" w) as [c|] eqn:Hf.
  - rewrite (run_fresh CONFIG env _ _ _ c Hf). by do 2 eexists.
  - destruct (fetchHotProducts_settles CONFIG env depth
                (after_cache_check CONFIG env "Hot" w) no_Hot_endpoint)
      as (raw & w1 & p & _ & _ & Hfetch & Hp).
    unfold run. rewrite (fetchProducts_miss_Hot CONFIG env _ _ Hf), Hfetch, Hp.
    by do 2 eexists.
Qed.

Lemma run_total depth e w :
  ∃ r w', run CONFIG env (S (S depth)) e w = Some (r, w').
Proof.
  destruct (decide (e = "Hot")) as [->|Hne].
  - destruct (run_Hot depth w) as (l & w' & ->). by do 2 eexists.
  - destruct (fetchProducts_sync CONFIG env (S depth) e w Hne)
      as (p & w1 & Hp & _).
    unfold run. rewrite Hp. exists (p w1).1, (p w1).2. by destruct (p w1).
Qed.

Section Sessions.
Variable I : list (string * CacheEntry) -> Prop.
Hypothesis I_store :
  CACHE_ENABLED CONFIG = true ->
  ∀ c key entry,
    I c -> Forall has_required_fields (data entry) ->
    I (Map_set key entry (evict_oldest CONFIG c)).
Hypothesis I_valid : CACHE_ENABLED CONFIG = true -> ∀ c, I c -> valid_cache c.
Hypothesis I_empty : I [].

Lemma session_sound depth (calls : list ServiceCall) :
  ∀ w, I (cache w) ->
    ∃ results w',
      session CONFIG env (S (S depth)) calls w = Some (results, w') ∧
      I (cache w') ∧
      Forall2 (fun e r => result_in_order CONFIG r ∧
                          (e = "Hot" -> ∃ l, r = Ok l))
        (fetch_endpoints calls) results.
Proof.
  induction calls as [|[e|] calls IH]; intros w Hw; cbn [session fetch_endpoints].
  - exists [], w. split; [done|]. split; [done|]. constructor.
  - destruct (run_total depth e w) as (r & w1 & Hrun).
    destruct (run_sound CONFIG env I I_store I_valid _ _ _ _ _ Hw Hrun)
      as [Hw1 Hr].
    destruct (IH w1 Hw1) as (rs & w2 & Hs & Hw2 & Hrs).
    rewrite Hrun, Hs. exists (r :: rs), w2. split; [done|]. split; [done|].
    constructor; [|done]. split; [done|]. intros ->.
    destruct (run_Hot depth w) as (l & w' & Hhot).
    rewrite Hhot in Hrun. injection Hrun as <- _. by exists l.
  - apply IH. exact I_empty.
Qed.
End Sessions.
End Totality.

Section SessionFacts.
Variable CONFIG : Config.
Variable env : Environment.

Lemma Map_set_values {V} (Q : V -> Prop) key (v : V) (m : list (string * V)) :
  Forall (fun kv => Q kv.2) m -> Q v ->
  Forall (fun kv => Q kv.2) (Map_set key v m).
Proof.
  intros Hm Hv. induction Hm as [|[k' v'] m Hk Hm IH]; simpl.
  - by repeat constructor.
  - destruct (decide (key = k')); by constructor.
Qed.

Lemma valid_cache_store c key entry :
  valid_cache c -> Forall has_required_fields (data entry) ->
  valid_cache (Map_set key entry (evict_oldest CONFIG c)).
Proof.
  intros Hc He. apply (Map_set_values (fun v => Forall has_required_fields (data v)));
    [|done].
  rewrite evict_oldest_tail. destruct (_ >=? _)%Z; [|done].
  destruct c as [|x c]; [done|]. by apply Forall_cons in Hc as [_ ?].
Qed.

Lemma cache_in_order_store c key entry :
  cache_in_order CONFIG c -> Forall has_required_fields (data entry) ->
  cache_in_order CONFIG (Map_set key entry (evict_oldest CONFIG c)).
Proof.
  intros (Hnd & Hsz & Hv) He. split; [|split].
  - by apply Map_set_NoDup, evict_oldest_NoDup.
  - unfold Map_size in *.
    pose proof (Map_set_length_le key entry (evict_oldest CONFIG c)) as Hle.
    rewrite evict_oldest_tail in *.
    destruct (_ >=? _)%Z eqn:Hfull.
    + destruct c as [|x c]; simpl in *; lia.
    + rewrite Z.geb_leb in Hfull. apply Z.leb_gt in Hfull. lia.
  - by apply valid_cache_store.
Qed.

Lemma cache_in_order_empty : cache_in_order CONFIG [].
Proof.
  split; [constructor|]. split; [simpl; lia|constructor].
Qed.

(** X7. Through any session of calls to [fetchProducts] and [clearCache],
    for a configuration none of whose fan-out endpoints is Hot and from a
    cache that is in order (as the empty cache is), every call returns and
    [getCacheInfo] keeps reporting distinct keys, as many as its size says,
    and at most [max 1 MAX_SIZE] of them; the lists held stay lists of
    records that carry the required fields. *)
Theorem session_keeps_the_cache_in_order
    (depth : nat) (calls : list ServiceCall) (w : World) :
  Forall (fun e => e ≠ "Hot") (otherCategories CONFIG) ->
  cache_in_order CONFIG (cache w) ->
  ∃ results w',
    session CONFIG env (S (S depth)) calls w = Some (results, w') ∧
    length results = length (fetch_endpoints calls) ∧
    (getCacheInfo w').1 = length (getCacheInfo w').2 ∧
    NoDup (getCacheInfo w').2 ∧
    Z.of_nat (getCacheInfo w').1 <= Z.max 1 (CACHE_MAX_SIZE CONFIG) ∧
    valid_cache (cache w').
Proof.
  intros Hhot Hw.
  destruct (session_sound CONFIG env Hhot (cache_in_order CONFIG)
              (fun _ => cache_in_order_store) (fun _ c H => proj2 (proj2 H))
              cache_in_order_empty depth calls w Hw)
    as (results & w' & Hs & (Hnd & Hsz & Hv) & Hrs).
  exists results, w'. split; [done|]. split.
  - symmetry. by eapply Forall2_length.
  - cbn [getCacheInfo fst snd]. split; [|done].
    unfold Map_size, Map_keys. by rewrite length_map.
Qed.

(** X8. In such a session every call returns, and what it returns is a
    list of records that all carry the required fields, whether it comes from
    the feed, from the cache or from the aggregation, or else a failure that
    carries one of the three configured messages; a call for Hot always
    returns a list. *)
Theorem session_results_are_valid_or_classified
    (depth : nat) (calls : list ServiceCall) (w : World) :
  Forall (fun e => e ≠ "Hot") (otherCategories CONFIG) ->
  valid_cache (cache w) ->
  ∃ results w',
    session CONFIG env (S (S depth)) calls w = Some (results, w') ∧
    Forall2 (fun e r =>
               match r with
               | Ok l => Forall has_required_fields l
               | Throw error => e ≠ "Hot" ∧ classified CONFIG error
               end)
      (fetch_endpoints calls) results.
Proof.
  intros Hhot Hw.
  destruct (session_sound CONFIG env Hhot valid_cache
              (fun _ => valid_cache_store) (fun _ c H => H)
              (Forall_nil_2 _) depth calls w Hw)
    as (results & w' & Hs & _ & Hrs).
  exists results, w'. split; [done|].
  eapply Forall2_impl; [exact Hrs|].
  intros e [l|err] [Hr Hot]; [done|]. split; [|done].
  intros ->. by destruct (Hot eq_refl).
Qed.

End SessionFacts.

(** ** The requests a call may send *)

Section Budget.
Variable CONFIG : Config.
Variable env : Environment.

Let N : nat := Z.to_nat (API_RETRY_COUNT CONFIG).

Lemma fetchCategory_within endpoint wi :
  requests (fetchCategory CONFIG env endpoint wi).2 = S (requests wi) ∧
  within N (fetchCategory CONFIG env endpoint wi).1.
Proof.
  unfold fetchCategory.
  assert (H : ∀ w', requests (fetchWithRetry CONFIG env
                        (apiUrl CONFIG env endpoint) 0 wi).2 = S (requests wi) ∧
            (requests w' <= requests ((fetchWithRetry CONFIG env
                        (apiUrl CONFIG env endpoint) 0 wi).1 w').2
               <= requests w' + N)%nat).
  { intros w'.
    pose proof (fetchWithRetry_halves CONFIG env (apiUrl CONFIG env endpoint) 0 wi w')
      as (_ & H1 & _ & H2). rewrite Z.sub_0_r in H2. done. }
  destruct (fetchWithRetry _ _ _ _ _) as [q w1]. cbn [fst snd] in *.
  split; [by destruct (H wi)|]. intros w'. destruct (H w') as [_ H2].
  destruct (q w') as [r0 w2]. cbn [snd] in H2.
  destruct (match r0 with Ok body => validProducts body | Throw e => Throw e end);
    [destruct (CACHE_ENABLED CONFIG)|]; exact H2.
Qed.

Lemma fetchProducts_within depth endpoint w :
  endpoint ≠ "Hot" ->
  ∃ p w1, fetchProducts CONFIG env (S depth) endpoint w = Some (p, w1) ∧
          (requests w <= requests w1 <= requests w + 1)%nat ∧ within N p.
Proof.
  intros Hne. destruct (fresh_entry CONFIG env endpoint w) as [c|] eqn:Hf.
  - rewrite (fetchProducts_fresh CONFIG env _ _ _ c Hf).
    do 2 eexists. split; [done|]. split; [simpl; lia|].
    intros w'. simpl. lia.
  - rewrite (fetchProducts_miss CONFIG env _ _ _ Hf Hne).
    destruct (fetchCategory_within endpoint
                (after_cache_check CONFIG env endpoint w)) as [H1 H2].
    rewrite after_cache_check_requests in H1.
    destruct (fetchCategory _ _ _ _) as [p w1]. cbn [fst snd] in *.
    exists p, w1. split; [done|]. split; [lia|done].
Qed.

Lemma call_each_within depth (endpoints : list string) :
  Forall (fun e => e ≠ "Hot") endpoints ->
  ∀ w, ∃ raw w',
    call_each (fetchProducts CONFIG env (S depth)) endpoints w = Some (raw, w') ∧
    length raw = length endpoints ∧
    (requests w <= requests w' <= requests w + length endpoints)%nat ∧
    Forall (within N) raw.
Proof.
  induction 1 as [|e es He Hes IH]; intros w; cbn [call_each].
  - exists [], w. split; [done|]. split; [done|]. split; [simpl; lia|constructor].
  - destruct (fetchProducts_within depth e w He) as (p & w1 & -> & Hr1 & Hp).
    destruct (IH w1) as (raw & w2 & -> & Hlen & Hr2 & Hraw).
    exists (p :: raw), w2. split; [done|]. simpl.
    split; [by rewrite Hlen|]. split; [lia|by constructor].
Qed.

Lemma absorbed_within (endpoints : list string) :
  ∀ raw, Forall (within N) raw ->
         Forall (within N) (zip_with absorb endpoints raw).
Proof.
  induction endpoints as [|e es IH]; intros [|p ps] H; simpl; try constructor.
  - apply Forall_cons in H as [Hp _]. intros w. specialize (Hp w).
    unfold absorb, catch. by destruct (p w) as [[l|err] w1].
  - apply IH. by apply Forall_cons in H as [_ ?].
Qed.

Lemma Promise_all_within {A} (ps : list (Promise A)) :
  Forall (within N) ps -> within (length ps * N) (Promise_all ps).
Proof.
  induction 1 as [|p ps Hp Hps IH]; intros w; cbn [Promise_all].
  - simpl. lia.
  - specialize (Hp w). destruct (p w) as [r w1].
    specialize (IH w1). destruct (Promise_all ps w1) as [rs w2].
    cbn [snd length] in *. lia.
Qed.

(** X10. A call sends a bounded number of requests.  For a direct category
    it sends at most [RETRY_COUNT + 1] (counting a negative retry count as
    zero); for Hot, when no fan-out endpoint is Hot, at most that many for
    each category the aggregation fans out to, whatever the feeds do and
    however many of them fail. *)
Theorem call_sends_a_bounded_number_of_requests
    (depth : nat) (endpoint : string) (w : World) :
  Forall (fun e => e ≠ "Hot") (otherCategories CONFIG) ->
  ∃ r w',
    run CONFIG env (S (S depth)) endpoint w = Some (r, w') ∧
    (requests w <= requests w')%nat ∧
    (requests w' <=
       requests w +
       (if decide (endpoint = "Hot") then length (otherCategories CONFIG) else 1)
       * (Z.to_nat (API_RETRY_COUNT CONFIG) + 1))%nat.
Proof.
  intros Hhot. fold N. destruct (decide (endpoint = "Hot")) as [->|Hne].
  - destruct (fresh_entry CONFIG env "Hot" w) as [c|] eqn:Hf.
    + rewrite (run_fresh CONFIG env _ _ _ c Hf). do 2 eexists.
      split; [done|]. simpl. lia.
    + destruct (call_each_within depth _ Hhot
                  (emit (LogHotSeed (hot_seed (clock env (clock_reads
                     (after_cache_check CONFIG env "Hot" w)))))
                     (snd (Date_now env (after_cache_check CONFIG env "Hot" w)))))
        as (raw & w1 & Hcall & Hlen & Hr1 & Hraw).
      cbn [emit Date_now snd requests] in Hr1.
      rewrite after_cache_check_requests in Hr1.
      pose proof (Promise_all_within _
                    (absorbed_within (otherCategories CONFIG) _ Hraw) w1) as Hall.
      rewrite length_zip_with, Hlen, Nat.min_id in Hall.
      unfold run. rewrite (fetchProducts_miss_Hot CONFIG env _ _ Hf).
      unfold fetchHotProducts. cbn [Date_now].
      destruct (decide (length (otherCategories CONFIG) = O)) as [Hz|Hnz].
      * do 2 eexists. split; [done|]. cbn [resolved].
        destruct (CACHE_ENABLED CONFIG); simpl;
          rewrite after_cache_check_requests; lia.
      * cbn [emit Date_now snd] in Hcall. rewrite Hcall.
        destruct (Promise_all _ w1) as [[ls|err] w4]; cbn [snd] in Hall.
        -- do 2 eexists. split; [done|].
           destruct (CACHE_ENABLED CONFIG); simpl; lia.
        -- do 2 eexists. split; [done|]. simpl. lia.
  - destruct (fetchProducts_within (S depth) endpoint w Hne)
      as (p & w1 & Hp & Hr1 & Hw).
    destruct (fresh_entry CONFIG env endpoint w) as [c|] eqn:Hf.
    + rewrite (run_fresh CONFIG env _ _ _ c Hf). do 2 eexists.
      split; [done|]. simpl. lia.
    + rewrite (run_miss CONFIG env _ _ _ Hf Hne).
      destruct (fetchCategory_within endpoint
                  (after_cache_check CONFIG env endpoint w)) as [H1 H2].
      rewrite after_cache_check_requests in H1.
      unfold await. destruct (fetchCategory _ _ _ _) as [q w2].
      cbn [fst snd] in *. specialize (H2 w2).
      exists (q w2).1, (q w2).2. split; [by destruct (q w2)|]. lia.
Qed.
End Budget.

(** ** The events a call may leave in the trace *)

Section TraceFacts.
Variable CONFIG : Config.
Variable env : Environment.
Variable U : string -> Prop.

Let T : Event -> Prop := allowed_event CONFIG U.

Lemma grows_refl (w w' : World) : trace w' = trace w -> grows T w w'.
Proof. intros H. exists []. by rewrite H, app_nil_r. Qed.

Lemma grows_trans (w1 w2 w3 : World) :
  grows T w1 w2 -> grows T w2 w3 -> grows T w1 w3.
Proof.
  intros (t1 & H1 & Ht1) (t2 & H2 & Ht2). exists (t1 ++ t2).
  split; [by rewrite H2, H1, app_assoc|by apply Forall_app].
Qed.

Lemma grows_emit (ev : Event) (w : World) : T ev -> grows T w (emit ev w).
Proof. intros H. exists [ev]. split; [done|by constructor]. Qed.

Lemma retries_allowed (url : string) (n : nat) :
  U url ->
  ∀ rc, 0 <= rc -> rc + Z.of_nat n <= API_RETRY_COUNT CONFIG ->
        Forall T (retries url (API_RETRY_DELAY CONFIG) rc n).
Proof.
  intros Hu. induction n as [|n IH]; intros rc H0 Hn; cbn [retries].
  - constructor.
  - constructor; [simpl; lia|].
    constructor; [exists (rc + 1); split; [lia|done]|].
    constructor; [exact Hu|]. apply IH; lia.
Qed.

Lemma fetchWithRetry_adds (url : string) (rc : Z) (wi : World) :
  U url -> 0 <= rc ->
  grows T wi (fetchWithRetry CONFIG env url rc wi).2 ∧
  adds T (fetchWithRetry CONFIG env url rc wi).1.
Proof.
  intros Hu H0. rewrite fetchWithRetry_equation_1. cbn [fetch fst snd]. split.
  - exists [EFetch url]. split; [done|]. by constructor.
  - intros w. destruct (attempt_result _); [by apply grows_refl|].
    destruct (decide _) as [Hlt|]; [|by apply grows_refl].
    change (λ H : World, fetchWithRetry CONFIG env url (rc + 1) H)
      with (fetchWithRetry CONFIG env url (rc + 1)).
    match goal with |- context [await _ ?w3] =>
      destruct (fetchWithRetry_shape CONFIG env url _ (rc + 1) w3 eq_refl)
        as (j & Hj & -> & _) end.
    cbn [snd trace delay emit].
    exists ([LogRetry (rc + 1); EDelay (API_RETRY_DELAY CONFIG * (rc + 1))] ++
            EFetch url :: retries url (API_RETRY_DELAY CONFIG) (rc + 1) j).
    split; [by rewrite <- !app_assoc|].
    constructor; [simpl; lia|].
    constructor; [exists (rc + 1); split; [lia|done]|].
    constructor; [exact Hu|]. apply retries_allowed; [done|lia|lia].
Qed.

Lemma fetchCategory_adds (endpoint : string) (wi : World) :
  U (apiUrl CONFIG env endpoint) ->
  grows T wi (fetchCategory CONFIG env endpoint wi).2 ∧
  adds T (fetchCategory CONFIG env endpoint wi).1.
Proof.
  intros Hu. unfold fetchCategory.
  destruct (fetchWithRetry_adds (apiUrl CONFIG env endpoint) 0 wi Hu ltac:(lia))
    as [H1 H2].
  destruct (fetchWithRetry _ _ _ _ _) as [q w1]. cbn [fst snd] in *.
  split; [done|]. intros w. specialize (H2 w).
  destruct (q w) as [r0 w2]. cbn [snd] in *.
  destruct (match r0 with Ok body => validProducts body | Throw e => Throw e end).
  - destruct (CACHE_ENABLED CONFIG); [|done].
    eapply grows_trans; [exact H2|]. by apply grows_refl.
  - eapply grows_trans; [exact H2|]. by apply grows_emit.
Qed.

Lemma fetchProducts_adds depth endpoint w :
  endpoint ≠ "Hot" -> U (apiUrl CONFIG env endpoint) ->
  ∃ p w1, fetchProducts CONFIG env (S depth) endpoint w = Some (p, w1) ∧
          grows T w w1 ∧ adds T p.
Proof.
  intros Hne Hu. destruct (fresh_entry CONFIG env endpoint w) as [c|] eqn:Hf.
  - rewrite (fetchProducts_fresh CONFIG env _ _ _ c Hf).
    do 2 eexists. split; [done|]. split.
    + eapply grows_trans; [|by apply grows_emit]. by apply grows_refl.
    + intros w'. by apply grows_refl.
  - rewrite (fetchProducts_miss CONFIG env _ _ _ Hf Hne).
    destruct (fetchCategory_adds endpoint
                (after_cache_check CONFIG env endpoint w) Hu) as [H1 H2].
    destruct (fetchCategory _ _ _ _) as [p w1]. cbn [fst snd] in *.
    exists p, w1. split; [done|]. split; [|done].
    eapply grows_trans; [|exact H1].
    apply grows_refl. apply after_cache_check_trace.
Qed.

Lemma call_each_adds depth (endpoints : list string) :
  Forall (fun e => e ≠ "Hot" ∧ U (apiUrl CONFIG env e)) endpoints ->
  ∀ w, ∃ raw w',
    call_each (fetchProducts CONFIG env (S depth)) endpoints w = Some (raw, w') ∧
    grows T w w' ∧ Forall (adds T) raw.
Proof.
  induction 1 as [|e es [He Hu] Hes IH]; intros w; cbn [call_each].
  - exists [], w. split; [done|]. split; [by apply grows_refl|constructor].
  - destruct (fetchProducts_adds depth e w He Hu) as (p & w1 & -> & Hg1 & Hp).
    destruct (IH w1) as (raw & w2 & -> & Hg2 & Hraw).
    exists (p :: raw), w2. split; [done|].
    split; [by eapply grows_trans|by constructor].
Qed.

Lemma absorbed_adds (endpoints : list string) :
  ∀ raw, Forall (adds T) raw -> Forall (adds T) (zip_with absorb endpoints raw).
Proof.
  induction endpoints as [|e es IH]; intros [|p ps] H; simpl; try constructor.
  - apply Forall_cons in H as [Hp _]. intros w. specialize (Hp w).
    unfold absorb, catch. destruct (p w) as [[l|err] w1]; [done|].
    eapply grows_trans; [exact Hp|]. by apply grows_emit.
  - apply IH. by apply Forall_cons in H as [_ ?].
Qed.

Lemma Promise_all_adds {A} (ps : list (Promise A)) :
  Forall (adds T) ps -> adds T (Promise_all ps).
Proof.
  induction 1 as [|p ps Hp Hps IH]; intros w; cbn [Promise_all].
  - by apply grows_refl.
  - specialize (Hp w). destruct (p w) as [r w1].
    specialize (IH w1). destruct (Promise_all ps w1) as [rs w2].
    cbn [snd] in *. by eapply grows_trans.
Qed.

Lemma run_Hot_adds depth w :
  Forall (fun e => e ≠ "Hot" ∧ U (apiUrl CONFIG env e)) (otherCategories CONFIG) ->
  ∃ r w', run CONFIG env (S (S depth)) "Hot" w = Some (r, w') ∧ grows T w w'.
Proof.
  intros Hall. destruct (fresh_entry CONFIG env "Hot" w) as [c|] eqn:Hf.
  - rewrite (run_fresh CONFIG env _ _ _ c Hf). do 2 eexists. split; [done|].
    eapply grows_trans; [|by apply grows_emit]. by apply grows_refl.
  - destruct (call_each_adds depth _ Hall
                (emit (LogHotSeed (hot_seed (clock env (clock_reads
                   (after_cache_check CONFIG env "Hot" w)))))
                   (snd (Date_now env (after_cache_check CONFIG env "Hot" w)))))
      as (raw & w1 & Hcall & Hg1 & Hraw).
    assert (Hg0 : grows T w
              (emit (LogHotSeed (hot_seed (clock env (clock_reads
                 (after_cache_check CONFIG env "Hot" w)))))
                 (snd (Date_now env (after_cache_check CONFIG env "Hot" w))))).
    { eapply grows_trans; [|by apply grows_emit].
      apply grows_refl. cbn [Date_now snd trace]. apply after_cache_check_trace. }
    pose proof (Promise_all_adds _
                  (absorbed_adds (otherCategories CONFIG) _ Hraw) w1) as Hg2.
    unfold run. rewrite (fetchProducts_miss_Hot CONFIG env _ _ Hf).
    unfold fetchHotProducts. cbn [Date_now].
    destruct (decide (length (otherCategories CONFIG) = O)) as [Hz|Hnz].
    + do 2 eexists. split; [done|]. cbn [resolved].
      destruct (CACHE_ENABLED CONFIG); [|exact Hg0].
      eapply grows_trans; [exact Hg0|]. by apply grows_refl.
    + cbn [emit Date_now snd] in Hcall. rewrite Hcall.
      destruct (Promise_all _ w1) as [[ls|err] w4]; cbn [snd] in Hg2.
      * do 2 eexists. split; [done|].
        eapply grows_trans; [exact Hg0|]. eapply grows_trans; [exact Hg1|].
        destruct (CACHE_ENABLED CONFIG); [|exact Hg2].
        eapply grows_trans; [exact Hg2|]. by apply grows_refl.
      * do 2 eexists. split; [done|].
        eapply grows_trans; [exact Hg0|]. eapply grows_trans; [exact Hg1|].
        eapply grows_trans; [exact Hg2|]. by apply grows_emit.
Qed.

Lemma run_direct_adds depth endpoint w :
  endpoint ≠ "Hot" -> U (apiUrl CONFIG env endpoint) ->
  ∃ r w', run CONFIG env (S depth) endpoint w = Some (r, w') ∧ grows T w w'.
Proof.
  intros Hne Hu.
  destruct (fetchProducts_adds depth endpoint w Hne Hu) as (p & w1 & Hp & Hg & Ha).
  unfold run. rewrite Hp. exists (p w1).1, (p w1).2.
  split; [by destruct (p w1)|]. eapply grows_trans; [exact Hg|apply Ha].
Qed.
End TraceFacts.


(** ** Clearing the cache *)

(** X14. [clearCache] empties the cache, so that [getCacheInfo] reports no
    key, and the next call for a direct category goes to the feed however
    recently the category was stored: the request is the first thing the
    call does, with no reading of the clock before it. *)
Theorem clearCache_forces_the_next_call_to_the_feed
    (CONFIG : Config) (env : Environment)
    (depth : nat) (endpoint : string) (w : World) :
  endpoint ≠ "Hot" ->
  getCacheInfo (clearCache w) = (O, []) ∧
  ∃ r w' t,
    run CONFIG env (S depth) endpoint (clearCache w) = Some (r, w') ∧
    (requests w < requests w')%nat ∧
    trace w' = trace w ++ EFetch (apiUrl CONFIG env endpoint) :: t.
Proof.
  intros Hne. split; [done|].
  destruct (run_direct CONFIG env depth endpoint (clearCache w) Hne)
    as [(c & Hf & _)|[_ Hrun]].
  - unfold fresh_entry in Hf. simpl in Hf.
    by destruct (CACHE_ENABLED CONFIG).
  - rewrite Hrun.
    replace (after_cache_check CONFIG env endpoint (clearCache w))
      with (clearCache w)
      by (unfold after_cache_check; simpl; by rewrite andb_false_r).
    pose proof (fetchCategory_frame CONFIG env endpoint (clearCache w)) as H.
    destruct (await _ (clearCache w)) as [r w'].
    destruct H as (Hr & t & Ht). by exists r, w', t.
Qed.

(** ** More on the shuffle *)

Section ShuffleMore.
Context {A B : Type}.

Lemma swap_fmap (f : A -> B) (l : list A) (i j : nat) :
  swap (f <$> l) i j = f <$> swap l i j.
Proof.
  unfold swap. rewrite !list_lookup_fmap.
  destruct (l !! j) as [aj|], (l !! i) as [ai|]; simpl; try done.
  by rewrite !list_fmap_insert.
Qed.

Lemma shuffle_loop_fmap (Math_sin : Z -> Q) (f : A -> B) (i : nat) :
  ∀ (c : Z) (l : list A),
    shuffle_loop Math_sin i c (f <$> l) = f <$> shuffle_loop Math_sin i c l.
Proof.
  induction i as [|i IH]; intros c l; [done|].
  cbn [shuffle_loop]. unfold random. by rewrite swap_fmap, IH.
Qed.

(** X11. The shuffle never looks at the records: the positions it swaps are
    decided by the length of the array and the seed alone.  Shuffling the
    images of the records under any function gives the images of the
    shuffled records. *)
Theorem seededShuffle_does_not_inspect_the_records
    (Math_sin : Z -> Q) (f : A -> B) (array : list A) (seed : Z) :
  seededShuffle Math_sin (f <$> array) seed =
  f <$> seededShuffle Math_sin array seed.
Proof.
  unfold seededShuffle. rewrite length_fmap. apply shuffle_loop_fmap.
Qed.

Lemma draw_index_Qeq (r r' : Q) (i : nat) :
  (r == r')%Q -> draw_index r i = draw_index r' i.
Proof.
  intros H. unfold draw_index. apply Qfloor_comp. by rewrite H.
Qed.

Lemma random_Qeq (sin1 sin2 : Z -> Q) (c : Z) :
  (sin1 c == sin2 c)%Q -> (fst (random sin1 c) == fst (random sin2 c))%Q.
Proof.
  intros H. unfold random; cbn [fst].
  assert (Hx : (sin1 c * inject_Z 10000 == sin2 c * inject_Z 10000)%Q)
    by (by rewrite H).
  rewrite (Qfloor_comp _ _ Hx). by rewrite Hx.
Qed.

Lemma shuffle_loop_agree (sin1 sin2 : Z -> Q) (i : nat) :
  ∀ (c : Z) (l : list A),
    (∀ k, c <= k < c + Z.of_nat i -> (sin1 k == sin2 k)%Q) ->
    shuffle_loop sin1 i c l = shuffle_loop sin2 i c l.
Proof.
  induction i as [|i IH]; intros c l Hag; [done|].
  cbn [shuffle_loop].
  assert (Hr : (fst (random sin1 c) == fst (random sin2 c))%Q)
    by (apply random_Qeq, Hag; lia).
  unfold random in *. cbn [fst] in Hr.
  rewrite (draw_index_Qeq _ _ (S i) Hr). apply IH. intros k Hk. apply Hag. lia.
Qed.

End ShuffleMore.

(** ** Worked instances *)

Example includes_inside :
  includes "TypeError: Failed to fetch (offline)" "Failed to fetch" = true.
Proof. reflexivity. Qed.

Example includes_absent : includes "HTTP 500: Server Error" "Failed to fetch" = false.
Proof. reflexivity. Qed.

Example bad_status_message :
  attempt_result (Response 503 "Service Unavailable" (Ok JNull)) =
    Throw (Error "HTTP 503: Service Unavailable").
Proof. reflexivity. Qed.

(** The end-to-end example of the specification: the Shoes feed fails twice,
    then answers with one valid and one invalid record. *)
Example end_to_end :
  run sample_config env_recovering 1 "Shoes" empty_world =
    Some (Ok [sample_record],
          {| cache := [("Shoes", {| data := [sample_record]; timestamp := 0 |})];
             clock_reads := 1;
             requests := 3;
             trace :=
               [EFetch "https://feed.example/Shoes"; LogRetry 1; EDelay 100;
                EFetch "https://feed.example/Shoes"; LogRetry 2; EDelay 200;
                EFetch "https://feed.example/Shoes"] |}).
Proof. vm_compute. reflexivity. Qed.

(** Hot with the Shoes feed down: the Bags feed alone contributes. *)
Example hot_with_one_feed_down :
  ∃ w', run sample_config env_shoes_down 2 "Hot" empty_world =
          Some (Ok [sample_record], w') ∧
        Map_keys (cache w') = ["Bags"; "Hot"] ∧
        requests w' = 4%nat.
Proof. eexists. vm_compute. repeat split. Qed.

Example shuffle_of_six :
  seededShuffle (fun c => (c # 7)%Q) [1; 2; 3; 4; 5; 6]%nat 3
    = [3; 1; 6; 4; 2; 5]%nat.
Proof. vm_compute. reflexivity. Qed.



Lemma retry_bound_instance :
  0 <= API_RETRY_COUNT sample_config ∧
  ∃ last w',
    run sample_config env_timing_out 1 "Shoes" empty_world =
      Some (Throw (handleError sample_config last), w') ∧
    Z.of_nat (requests w') = 3.
Proof.
  assert (Hall : ∀ url (k : nat),
            (k <= Z.to_nat (API_RETRY_COUNT sample_config))%nat ->
            ∃ e, fails (upstream env_timing_out (requests empty_world + k) url) e)
    by (intros; eexists; reflexivity).
  split; [done|].
  destruct (failing_upstream_is_tried_retry_count_plus_one_times
              sample_config env_timing_out "https://feed.example/Shoes"
              empty_world 0 "Shoes" empty_world)
    as [_ (last & w' & _ & Hrun & _ & Hreq)];
    [done|apply Hall|done|reflexivity|apply Hall|].
  exists last, w'. split; [exact Hrun|exact Hreq].
Defined.

Lemma exhausted_retries_instance :
  0 <= API_RETRY_COUNT sample_config ∧
  ∃ last w',
    await (fetchWithRetry sample_config env_shoes_down
             "https://feed.example/Shoes" 0) empty_world = (Throw last, w') ∧
    (classify last = NetworkError ↔
       is_abort last = false ∧ is_transport_failure last = true).
Proof.
  split; [done|].
  destruct (exhausted_retries_raise_last_failure sample_config env_shoes_down
              "https://feed.example/Shoes" empty_world)
    as (last & w' & _ & Hrun & Hkind);
    [done|by intros; eexists; reflexivity|].
  by exists last, w'.
Defined.


Lemma overwrite_at_capacity_instance :
  Map_has "Bags" (cache warm_world) = true ∧
  ∃ firstKey oldest rest,
    cache warm_world = (firstKey, oldest) :: rest ∧
    (firstKey ≠ "Bags" ->
       Z.of_nat (Map_size (cache (updateCache sample_config env_timing_out
                                    "Bags" [sample_record] warm_world))) = 1).
Proof.
  split; [reflexivity|].
  destruct (store_to_a_held_key_at_capacity_still_evicts
              sample_config env_timing_out warm_world "Bags" [sample_record])
    as (firstKey & oldest & rest & Hc & Hne & _).
  - by apply (bool_decide_unpack _).
  - reflexivity.
  - reflexivity.
  - exists firstKey, oldest, rest. split; [exact Hc|].
    intros H. by destruct (Hne H) as (_ & _ & _ & _ & Hsz).
Defined.

Lemma cache_hit_instance :
  CACHE_ENABLED sample_config = true ∧
  Map_get "Shoes" (cache warm_world) =
    Some {| data := [sample_record]; timestamp := 0 |} ∧
  ∃ w', run sample_config env_shoes_down 2 "Shoes" warm_world =
          Some (Ok [sample_record], w') ∧
        requests w' = requests warm_world.
Proof.
  split; [reflexivity|]. split; [reflexivity|].
  destruct (cached_entry_is_a_hit_exactly_while_fresh
              sample_config env_shoes_down 0 "Shoes" warm_world
              {| data := [sample_record]; timestamp := 0 |})
    as [Hhit _]; [reflexivity|reflexivity|].
  destruct Hhit as (w' & Hrun & Hreq & _); [done|].
  by exists w'.
Defined.




Lemma first_answer_instance :
  Z.of_nat 2 <= API_RETRY_COUNT sample_config ∧
  ∃ w',
    await (fetchWithRetry sample_config env_recovering
             "https://feed.example/Shoes" 0) empty_world = (Ok sample_body, w') ∧
    requests w' = 3%nat.
Proof.
  split; [done|].
  destruct (fetchWithRetry_returns_the_first_answer sample_config env_recovering
              "https://feed.example/Shoes" sample_body 2 empty_world)
    as (w' & Hrun & Hreq & _).
  - done.
  - intros [|[|k]] Hk; [eexists; reflexivity..|lia].
  - reflexivity.
  - by exists w'.
Defined.

Lemma failed_call_instance :
  "Shoes" ≠ "Hot" ∧
  ∃ r w',
    run sample_config env_timing_out 1 "Shoes" empty_world = Some (r, w') ∧
    ∀ e, r = Throw e -> cache w' = cache empty_world.
Proof.
  split; [done|].
  destruct (failed_direct_call_leaves_the_cache_alone sample_config env_timing_out
              0 "Shoes" empty_world) as (r & w' & Hrun & Hthrow); [done|].
  exists r, w'. split; [exact Hrun|].
  intros e He. by destruct (Hthrow e He) as (_ & Hc & _).
Defined.

Lemma malformed_body_instance :
  fresh_entry sample_config env_malformed "Shoes" empty_world = None ∧
  response_ok 200 = true ∧
  malformed (JArr [sample_record; JNull]) ∧
  ∃ w',
    run sample_config env_malformed 1 "Shoes" empty_world
      = Some (Throw (Error "The products could not be loaded"), w') ∧
    requests w' = 1%nat.
Proof.
  assert (Hm : malformed (JArr [sample_record; JNull]))
    by (right; left).
  split; [reflexivity|]. split; [reflexivity|]. split; [exact Hm|].
  destruct (malformed_body_is_not_retried sample_config env_malformed
              0 "Shoes" empty_world 200 "OK" (JArr [sample_record; JNull]))
    as (e & w' & _ & Hrun & Hreq & _);
    [done|reflexivity|reflexivity|reflexivity|exact Hm|].
  by exists w'.
Defined.

Lemma stored_result_instance :
  CACHE_ENABLED sample_config = true ∧
  fresh_entry sample_config env_recovering "Shoes" empty_world = None ∧
  ∃ w', run sample_config env_recovering 1 "Shoes" empty_world
          = Some (Ok [sample_record], w') ∧
        Map_get "Shoes" (cache w') =
          Some {| data := [sample_record];
                  timestamp := clock env_recovering (pred (clock_reads w')) |}.
Proof.
  split; [reflexivity|]. split; [reflexivity|].
  pose proof end_to_end as Hrun.
  eexists. split; [exact Hrun|].
  destruct (stored_result_answers_the_next_call sample_config env_recovering
              0 "Shoes" empty_world _ [sample_record] eq_refl eq_refl Hrun)
    as [Hget _].
  exact Hget.
Defined.

Lemma store_instance :
  NoDup (Map_keys (cache warm_world)) ∧
  Map_get "Hats" (cache (updateCache sample_config env_timing_out
                           "Hats" [] warm_world)) =
    Some {| data := []; timestamp := 0 |} ∧
  Map_get "Shoes" (cache (updateCache sample_config env_timing_out
                            "Hats" [] warm_world)) = None.
Proof.
  assert (H : NoDup (Map_keys (cache warm_world)))
    by (by apply (bool_decide_unpack _)).
  split; [exact H|].
  destruct (updateCache_stores_and_keeps_the_rest sample_config env_timing_out
              warm_world "Hats" [] H) as (Hget & _ & Hrest & _).
  split; [exact Hget|]. by rewrite (Hrest "Shoes").
Defined.

Lemma session_cache_instance :
  Forall (fun e => e ≠ "Hot") (otherCategories sample_config) ∧
  cache_in_order sample_config (cache empty_world) ∧
  ∃ results w',
    session sample_config env_shoes_down 2
      [CallFetchProducts "Hot"; CallClearCache; CallFetchProducts "Shoes"]
      empty_world = Some (results, w') ∧
    length results = 2%nat ∧
    Z.of_nat (getCacheInfo w').1 <= 2.
Proof.
  assert (H : Forall (fun e => e ≠ "Hot") (otherCategories sample_config))
    by (repeat constructor; discriminate).
  assert (H0 : cache_in_order sample_config (cache empty_world))
    by apply cache_in_order_empty.
  split; [exact H|]. split; [exact H0|].
  destruct (session_keeps_the_cache_in_order sample_config env_shoes_down 0
              [CallFetchProducts "Hot"; CallClearCache; CallFetchProducts "Shoes"]
              empty_world H H0)
    as (results & w' & Hrun & Hlen & _ & _ & Hsz & _).
  by exists results, w'.
Defined.

Lemma session_results_instance :
  Forall (fun e => e ≠ "Hot") (otherCategories sample_config) ∧
  valid_cache (cache warm_world) ∧
  ∃ results w',
    session sample_config env_shoes_down 2
      [CallFetchProducts "Shoes"; CallClearCache; CallFetchProducts "Shoes"]
      warm_world = Some (results, w') ∧
    length results = 2%nat.
Proof.
  assert (H : Forall (fun e => e ≠ "Hot") (otherCategories sample_config))
    by (repeat constructor; discriminate).
  assert (H0 : valid_cache (cache warm_world))
    by (unfold valid_cache; by apply (bool_decide_unpack _)).
  split; [exact H|]. split; [exact H0|].
  destruct (session_results_are_valid_or_classified sample_config env_shoes_down 0
              [CallFetchProducts "Shoes"; CallClearCache; CallFetchProducts "Shoes"]
              warm_world H H0)
    as (results & w' & Hrun & Hall).
  exists results, w'. split; [exact Hrun|].
  by rewrite <- (Forall2_length _ _ _ Hall).
Defined.


Lemma request_budget_instance :
  Forall (fun e => e ≠ "Hot") (otherCategories sample_config) ∧
  ∃ r w',
    run sample_config env_shoes_down 2 "Hot" empty_world = Some (r, w') ∧
    (requests w' <= 6)%nat.
Proof.
  assert (H : Forall (fun e => e ≠ "Hot") (otherCategories sample_config))
    by (repeat constructor; discriminate).
  split; [exact H|].
  destruct (call_sends_a_bounded_number_of_requests sample_config env_shoes_down
              0 "Hot" empty_world H) as (r & w' & Hrun & _ & Hle).
  exists r, w'. split; [exact Hrun|exact Hle].
Defined.



Lemma clearCache_instance :
  "Shoes" ≠ "Hot" ∧
  fresh_entry sample_config env_shoes_down "Shoes" warm_world =
    Some {| data := [sample_record]; timestamp := 0 |} ∧
  ∃ r w' t,
    run sample_config env_shoes_down 1 "Shoes" (clearCache warm_world)
      = Some (r, w') ∧
    trace w' = trace warm_world ++ EFetch "https://feed.example/Shoes" :: t.
Proof.
  assert (H : "Shoes" ≠ "Hot") by done.
  split; [exact H|]. split; [reflexivity|].
  destruct (clearCache_forces_the_next_call_to_the_feed sample_config
              env_shoes_down 0 "Shoes" warm_world H)
    as (_ & r & w' & t & Hrun & _ & Ht).
  by exists r, w', t.
Defined.
